(** * Verification of the RRD connector of facette (src/pkg/connector/rrd.go)

    Shallow embedding of the connector: the factory registered in [init],
    [Refresh] (catalog discovery), [rrdGetData] (query compilation,
    export, graph information and result merging), [rrdParseInfo] and
    [rrdSetGraph].  Float64 values are modelled by rationals [Q] together
    with a distinguished not-a-number value; the time-series engine (librrd
    behind the vendored Go wrapper) is an explicit parameter of the query
    execution, with a concrete reverse-Polish export evaluator below. *)

From Stdlib Require Import ZArith QArith Qabs List Ascii String Decimal DecimalNat DecimalN Lia.
From stdpp Require Import base strings gmap list.

Open Scope string_scope.

(* ------------------------------------------------------------------ *)
(** ** Results: Go [(value, error)] pairs and run-time panics *)

Inductive Res (A : Type) : Type :=
| Ok (a : A)
| Err (msg : string)
| Panic (msg : string).
Arguments Ok {A} a.
Arguments Err {A} msg.
Arguments Panic {A} msg.

#[global] Instance res_ret : MRet Res := fun A a => Ok a.
#[global] Instance res_bind : MBind Res := fun A B f r =>
  match r with
  | Ok a => f a
  | Err m => Err m
  | Panic m => Panic m
  end.

(* ------------------------------------------------------------------ *)
(** ** Decimal rendering: [fmt.Sprintf("%d")], [strconv.Itoa], ["%.Nf"] *)

Fixpoint uint_to_string (u : Decimal.uint) : string :=
  match u with
  | Nil => ""
  | D0 u => String "0"%char (uint_to_string u)
  | D1 u => String "1"%char (uint_to_string u)
  | D2 u => String "2"%char (uint_to_string u)
  | D3 u => String "3"%char (uint_to_string u)
  | D4 u => String "4"%char (uint_to_string u)
  | D5 u => String "5"%char (uint_to_string u)
  | D6 u => String "6"%char (uint_to_string u)
  | D7 u => String "7"%char (uint_to_string u)
  | D8 u => String "8"%char (uint_to_string u)
  | D9 u => String "9"%char (uint_to_string u)
  end.

(** [strconv.Itoa] / ["%d"] on a non-negative integer. *)
Definition itoa (n : nat) : string := uint_to_string (Nat.to_uint n).

(** ["%d"] on a signed integer. *)
Definition ztoa (z : Z) : string :=
  if (z <? 0)%Z then "-" +:+ itoa (Z.to_nat (- z)) else itoa (Z.to_nat z).

Definition digit_char (d : Z) : string :=
  match d with
  | 0%Z => "0" | 1%Z => "1" | 2%Z => "2" | 3%Z => "3" | 4%Z => "4"
  | 5%Z => "5" | 6%Z => "6" | 7%Z => "7" | 8%Z => "8" | _ => "9"
  end.

(** Exactly [k] decimal digits of [f], most significant first. *)
Fixpoint frac_digits (k : nat) (f : Z) : string :=
  match k with
  | O => ""
  | S k' => frac_digits k' (f / 10) +:+ digit_char (f mod 10)
  end.

(** Rounding of [n / d] (n >= 0, d > 0) to the nearest integer, ties to
    even, as Go's formatting does on the exact value. *)
Definition round_half_even (n d : Z) : Z :=
  let qt := (n / d)%Z in
  let r := (n mod d)%Z in
  if ((2 * r >? d)%Z || ((2 * r =? d)%Z && Z.odd qt))%bool then (qt + 1)%Z else qt.

(** [fmt.Sprintf("%.<prec>f", q)]. *)
Definition fmt_fixed (prec : nat) (q : Q) : string :=
  let scale := (10 ^ Z.of_nat prec)%Z in
  let m := round_half_even (Z.abs (Qnum q) * scale) (Zpos (Qden q)) in
  (if (Qnum q <? 0)%Z then "-" else "")
    +:+ itoa (Z.to_nat (m / scale))
    +:+ (match prec with O => "" | _ => "." +:+ frac_digits prec (m mod scale) end).

(* ------------------------------------------------------------------ *)
(** ** Data model *)

(** Go's [types.PlotValue] is a float64; NaN is the engine's unknown value. *)
Inductive PlotValue : Type :=
| PNum (q : Q)
| PNaN.

(** Modelled from the spec: the query types [GroupQuery], [SerieQuery],
    [MetricQuery] and the [OperGroupType*] constants are declared in the
    connector package outside src/; their fields are those used by rrd.go. *)
Record MetricQuery : Type := { mq_Name : string; mq_SourceName : string }.
Record SerieQuery : Type :=
  { sq_Name : string; sq_Metric : option MetricQuery; sq_Scale : Q }.
Record GroupQuery : Type :=
  { gq_Name : string; gq_Type : Z; gq_Series : list SerieQuery; gq_Scale : Q }.

Definition OperGroupTypeNone : Z := 0.
Definition OperGroupTypeAvg : Z := 1.
Definition OperGroupTypeSum : Z := 2.

Record PlotResult : Type :=
  { Plots : list PlotValue; Info : gmap string PlotValue }.

Record rrdMetric : Type := { Dataset : string; FilePath : string }.

Record RRDConnector : Type :=
  { Path : string; Pattern : string; Daemon : string;
    metrics : gmap string (gmap string rrdMetric) }.

(** Engine programs: the argument lists built by the vendored Go wrapper. *)
Inductive Instr : Type :=
| IDef (vname file ds cf : string)
| ICDef (vname expr : string)
| IVDef (vname expr : string)
| IPrint (vname fmt : string)
| IXportDef (vname label : string).

Record Grapher : Type := { g_daemon : string; g_prog : list Instr }.
Record Exporter : Type := { x_daemon : string; x_prog : list Instr }.

Definition NewGrapher : Grapher := {| g_daemon := ""; g_prog := [] |}.
Definition NewExporter : Exporter := {| x_daemon := ""; x_prog := [] |}.

Definition g_add (g : Grapher) (i : Instr) : Grapher :=
  {| g_daemon := g_daemon g; g_prog := g_prog g ++ [i] |}.
Definition x_add (x : Exporter) (i : Instr) : Exporter :=
  {| x_daemon := x_daemon x; x_prog := x_prog x ++ [i] |}.
Definition g_set_daemon (g : Grapher) (d : string) : Grapher :=
  {| g_daemon := d; g_prog := g_prog g |}.
Definition x_set_daemon (x : Exporter) (d : string) : Exporter :=
  {| x_daemon := d; x_prog := x_prog x |}.

(* ------------------------------------------------------------------ *)
(** ** rrdSetGraph *)

(** [int(x)] on a float64 [x]: the fraction is discarded (truncation toward
    zero); when the truncated value does not fit in 64 bits the result is
    implementation-dependent, and on amd64 (CVTTSD2SQ) it is the integer
    indefinite value -2^63. *)
Definition go_int (x : Q) : Z :=
  let t := Z.quot (Qnum x) (Zpos (Qden x)) in
  if ((-(2 ^ 63) <=? t) && (t <? 2 ^ 63))%Z then t else (-(2 ^ 63))%Z.

(** [percentile-float64(int(percentile)) != 0]; [float64] of the int64 is
    exact here, as the truncation of a float64 value and -2^63 are float64
    values. *)
Definition pct_nonintegral (p : Q) : bool :=
  negb (Qeq_bool (p - inject_Z (go_int p)) 0).

Fixpoint set_graph_pcts (serieName itemName : string) (index : nat) (pcts : list Q)
    : list Instr :=
  match pcts with
  | [] => []
  | percentile :: rest =>
      ICDef (serieName +:+ "-cdef" +:+ itoa index)
            (serieName +:+ ",UN,0," +:+ serieName +:+ ",IF")
      :: IVDef (serieName +:+ "-vdef" +:+ itoa index)
               (serieName +:+ "-cdef" +:+ itoa index +:+ "," +:+ fmt_fixed 6 percentile
                  +:+ ",PERCENT")
      :: (if pct_nonintegral percentile
          then IPrint (serieName +:+ "-vdef" +:+ itoa index)
                      (itemName +:+ "," +:+ fmt_fixed 2 percentile +:+ "th,%lf")
          else IPrint (serieName +:+ "-vdef" +:+ itoa index)
                      (itemName +:+ "," +:+ fmt_fixed 0 percentile +:+ "th,%lf"))
      :: set_graph_pcts serieName itemName (S index) rest
  end.

Definition rrdSetGraph (graph : Grapher) (serieName itemName : string) (pcts : list Q)
    : Grapher :=
  {| g_daemon := g_daemon graph;
     g_prog := g_prog graph ++
       [IVDef (serieName +:+ "-min") (serieName +:+ ",MINIMUM");
        IPrint (serieName +:+ "-min") (itemName +:+ ",min,%lf");
        IVDef (serieName +:+ "-avg") (serieName +:+ ",AVERAGE");
        IPrint (serieName +:+ "-avg") (itemName +:+ ",avg,%lf");
        IVDef (serieName +:+ "-max") (serieName +:+ ",MAXIMUM");
        IPrint (serieName +:+ "-max") (itemName +:+ ",max,%lf");
        IVDef (serieName +:+ "-last") (serieName +:+ ",LAST");
        IPrint (serieName +:+ "-last") (itemName +:+ ",last,%lf")]
       ++ set_graph_pcts serieName itemName 0 pcts |}.

(* ------------------------------------------------------------------ *)
(** ** rrdGetData, compilation part (lines 165-325) *)

(** The locals of [rrdGetData] threaded through the loops. *)
Record CState : Type :=
  { cs_graph : Grapher; cs_xport : Exporter; cs_series : gmap string string;
    cs_stack : list string; cs_count : nat }.

Definition nil_deref : string :=
  "runtime error: invalid memory address or nil pointer dereference".

(** [connector.metrics[src][name].FilePath]: a missing entry is a nil
    [*rrdMetric], whose field access panics. *)
Definition metric_lookup (ms : gmap string (gmap string rrdMetric)) (m : MetricQuery)
    : Res rrdMetric :=
  match ms !! mq_SourceName m with
  | Some inner =>
      match inner !! mq_Name m with
      | Some r => Ok r
      | None => Panic nil_deref
      end
  | None => Panic nil_deref
  end.

(** ["%s-orig0,%f,*"] and the like. *)
Definition scale_expr (v : string) (s : Q) : string := v +:+ "," +:+ fmt_fixed 6 s +:+ ",*".

Definition is_zero (s : Q) : bool := Qeq_bool s 0.

Section Compile.
Variable connector : RRDConnector.
Variable query : GroupQuery.
Variable percentiles : list Q.
Variable infoOnly : bool.

(** Body of the [OperGroupTypeNone] loop (lines 194-252). *)
Fixpoint none_loop (series : list SerieQuery) (st : CState) : Res CState :=
  match series with
  | [] => Ok st
  | serie :: rest =>
      match sq_Metric serie with
      | None => none_loop rest st
      | Some mq =>
          let serieTemp := "serie" +:+ itoa (cs_count st) in
          let serieName := sq_Name serie in
          rm ← metric_lookup (metrics connector) mq;
          let def := IDef (serieTemp +:+ "-orig0") (FilePath rm) (Dataset rm) "AVERAGE" in
          let cd1 := if negb (is_zero (sq_Scale serie))
                     then ICDef (serieTemp +:+ "-orig1") (scale_expr (serieTemp +:+ "-orig0") (sq_Scale serie))
                     else ICDef (serieTemp +:+ "-orig1") (serieTemp +:+ "-orig0") in
          let cd2 := if negb (is_zero (gq_Scale query))
                     then ICDef serieTemp (scale_expr (serieTemp +:+ "-orig1") (gq_Scale query))
                     else ICDef serieTemp (serieTemp +:+ "-orig1") in
          let graph := rrdSetGraph (g_add (g_add (g_add (cs_graph st) def) cd1) cd2)
                                   serieTemp serieName percentiles in
          let xport := if negb infoOnly
                       then x_add (x_add (x_add (x_add (cs_xport st) def) cd1) cd2)
                                  (IXportDef serieTemp serieTemp)
                       else cs_xport st in
          none_loop rest
            {| cs_graph := graph; cs_xport := xport;
               cs_series := <[serieTemp := serieName]> (cs_series st);
               cs_stack := cs_stack st; cs_count := S (cs_count st) |}
      end
  end.

(** Body of the [OperGroupTypeAvg, OperGroupTypeSum] loop (lines 258-290);
    [index] is the position in [query.Series], unresolved entries included. *)
Fixpoint agg_loop (serieName : string) (index : nat) (series : list SerieQuery)
    (st : CState) : Res CState :=
  match series with
  | [] => Ok st
  | serie :: rest =>
      match sq_Metric serie with
      | None => agg_loop serieName (S index) rest st
      | Some mq =>
          let serieTemp := serieName +:+ "-tmp" +:+ itoa index in
          rm ← metric_lookup (metrics connector) mq;
          let def := IDef (serieTemp +:+ "-ori") (FilePath rm) (Dataset rm) "AVERAGE" in
          let cd := ICDef serieTemp (serieTemp +:+ "-ori,UN,0," +:+ serieTemp +:+ "-ori,IF") in
          let graph := g_add (g_add (cs_graph st) def) cd in
          let xport := if negb infoOnly then x_add (x_add (cs_xport st) def) cd
                       else cs_xport st in
          let stack := match cs_stack st with
                       | [] => (cs_stack st ++ [serieTemp])%list
                       | _ => (cs_stack st ++ [serieTemp; "+"])%list
                       end in
          agg_loop serieName (S index) rest
            {| cs_graph := graph; cs_xport := xport; cs_series := cs_series st;
               cs_stack := stack; cs_count := cs_count st |}
      end
  end.

(** The [OperGroupTypeAvg, OperGroupTypeSum] case (lines 254-321). *)
Definition agg_case (st0 : CState) : Res CState :=
  let serieName := "serie" +:+ itoa (cs_count st0) in
  let st1 := {| cs_graph := cs_graph st0; cs_xport := cs_xport st0;
                cs_series := cs_series st0; cs_stack := cs_stack st0;
                cs_count := S (cs_count st0) |} in
  st2 ← agg_loop serieName 0 (gq_Series query) st1;
  let stack := if (gq_Type query =? OperGroupTypeAvg)%Z
               then (cs_stack st2 ++ [itoa (List.length (gq_Series query)); "/"])%list
               else cs_stack st2 in
  let cd1 := ICDef (serieName +:+ "-orig") (String.concat "," stack) in
  let cd2 := if negb (is_zero (gq_Scale query))
             then ICDef serieName (scale_expr (serieName +:+ "-orig") (gq_Scale query))
             else ICDef serieName (serieName +:+ "-orig") in
  let graph := rrdSetGraph (g_add (g_add (cs_graph st2) cd1) cd2)
                           serieName (gq_Name query) percentiles in
  let xport := if negb infoOnly
               then x_add (x_add (x_add (cs_xport st2) cd1) cd2) (IXportDef serieName serieName)
               else cs_xport st2 in
  Ok {| cs_graph := graph; cs_xport := xport;
        cs_series := <[serieName := gq_Name query]> (cs_series st2);
        cs_stack := stack; cs_count := cs_count st2 |}.

(** Lines 171-325, for a query whose type has already been collapsed. *)
Definition rrdCompile : Res CState :=
  let graph0 := if negb (String.eqb (Daemon connector) "")
                then g_set_daemon NewGrapher (Daemon connector) else NewGrapher in
  let xport0 := if negb infoOnly
                then (if negb (String.eqb (Daemon connector) "")
                      then x_set_daemon NewExporter (Daemon connector) else NewExporter)
                else NewExporter in
  let st0 := {| cs_graph := graph0; cs_xport := xport0; cs_series := ∅;
                cs_stack := []; cs_count := 0 |} in
  if (gq_Type query =? OperGroupTypeNone)%Z then none_loop (gq_Series query) st0
  else if ((gq_Type query =? OperGroupTypeAvg)%Z || (gq_Type query =? OperGroupTypeSum)%Z)%bool
  then agg_case st0
  else Err ("unknown `" +:+ ztoa (gq_Type query) +:+ "' operator type").

End Compile.

(** Lines 165-169: the empty-query check and the in-place collapse of
    [query.Type] (the caller's [*GroupQuery] is written). *)
Definition collapse_type (q : GroupQuery) : GroupQuery :=
  if (negb (gq_Type q =? OperGroupTypeNone)%Z && Nat.eqb (List.length (gq_Series q)) 1)%bool
  then {| gq_Name := gq_Name q; gq_Type := OperGroupTypeNone;
          gq_Series := gq_Series q; gq_Scale := gq_Scale q |}
  else q.

(* ------------------------------------------------------------------ *)
(** ** Strings: [strings.SplitN] and [strconv.ParseFloat] *)

Fixpoint split_first (sep : ascii) (s : string) : option (string * string) :=
  match s with
  | EmptyString => None
  | String c s' =>
      if Ascii.eqb c sep then Some ("", s')
      else match split_first sep s' with
           | Some (a, b) => Some (String c a, b)
           | None => None
           end
  end.

(** [strings.SplitN(s, sep, n)] for a one-character separator. *)
Fixpoint SplitN (s : string) (sep : ascii) (n : nat) : list string :=
  match n with
  | O => []
  | S O => [s]
  | S n' =>
      match split_first sep s with
      | None => [s]
      | Some (a, b) => a :: SplitN b sep n'
      end
  end.

Fixpoint count_char (c : ascii) (s : string) : nat :=
  match s with
  | EmptyString => O
  | String c' s' => (if Ascii.eqb c' c then 1 else 0) + count_char c s'
  end.

Definition digit_val (c : ascii) : option Z :=
  let n := nat_of_ascii c in
  if (Nat.leb 48 n && Nat.leb n 57)%bool then Some (Z.of_nat (n - 48)) else None.

(** Leading decimal digits: accumulated value, digit count, rest. *)
Fixpoint read_digits (s : string) (acc : Z) (k : nat) : Z * nat * string :=
  match s with
  | String c s' =>
      match digit_val c with
      | Some d => read_digits s' (acc * 10 + d)%Z (S k)
      | None => (acc, k, s)
      end
  | EmptyString => (acc, k, s)
  end.

(** Decimal literals [[+-]digits[.digits]]. *)
Definition parse_decimal (s : string) : option Q :=
  let '(neg, s1) := match s with
                    | String "-"%char r => (true, r)
                    | String "+"%char r => (false, r)
                    | _ => (false, s)
                    end in
  let sgn := fun (z : Z) => if neg then (- z)%Z else z in
  match read_digits s1 0 0 with
  | (ip, ni, EmptyString) =>
      if Nat.eqb ni 0 then None else Some (sgn ip # 1)
  | (ip, ni, String "."%char r2) =>
      match read_digits r2 ip 0 with
      | (fp, nf, EmptyString) =>
          if Nat.eqb (ni + nf) 0 then None
          else Some (sgn fp # Z.to_pos (10 ^ Z.of_nat nf))
      | _ => None
      end
  | _ => None
  end.

(** [strconv.ParseFloat(s, 64)] on decimal literals and ["nan"]/["NaN"]
    ([None] is a non-nil error); exponents and infinities are not modelled
    and are reported as errors. *)
Definition ParseFloat (s : string) : option PlotValue :=
  if (String.eqb s "nan" || String.eqb s "NaN")%bool then Some PNaN
  else match parse_decimal s with Some q => Some (PNum q) | None => None end.

(* ------------------------------------------------------------------ *)
(** ** rrdParseInfo (lines 359-374) *)

Definition empty_plot_result : PlotResult := {| Plots := []; Info := ∅ |}.

Section ParseInfo.
(** [strconv.ParseFloat]; [None] stands for a non-nil error. *)
Variable parse_float : string -> option PlotValue.

Definition parse_info_line (value : string) (data : gmap string PlotResult)
    : Res (gmap string PlotResult) :=
  match SplitN value ","%char 3 with
  | c0 :: c1 :: c2 :: _ =>
      let chunkFloat := match parse_float c2 with Some f => f | None => PNaN end in
      let pr := match data !! c0 with Some pr => pr | None => empty_plot_result end in
      Ok (<[c0 := {| Plots := Plots pr; Info := <[c1 := chunkFloat]> (Info pr) |}]> data)
  | _ => Panic "runtime error: index out of range [2]"
  end.

Fixpoint rrdParseInfo (print : list string) (data : gmap string PlotResult)
    : Res (gmap string PlotResult) :=
  match print with
  | [] => Ok data
  | value :: rest => data' ← parse_info_line value data; rrdParseInfo rest data'
  end.
End ParseInfo.

(* ------------------------------------------------------------------ *)
(** ** The engine and its result buffers *)

Record XportData : Type :=
  { xd_Legends : list string; xd_RowCnt : nat; xd_values : list PlotValue }.

(** Modelled from the spec: the vendored wrapper's [rrd.XportResult]; a
    successful export holds an engine-side buffer ([xr_buf]) that
    [FreeValues] releases; the zero value [rrd.XportResult{}] holds none. *)
Record XportResult : Type := { xr_data : XportData; xr_buf : option nat }.

Definition XportResult_zero : XportResult :=
  {| xr_data := {| xd_Legends := []; xd_RowCnt := 0; xd_values := [] |}; xr_buf := None |}.

(** Engine-held buffers still allocated, and the next buffer handle. *)
Record EngineState : Type := { es_live : list nat; es_next : nat }.

(** The time-series engine: export and graph-information runs. *)
Record Engine : Type :=
  { eng_xport : Exporter -> Z -> Z -> Z -> Res XportData;
    eng_graph : Grapher -> Z -> Z -> Res (list string) }.

(** Modelled from the spec: [Exporter.Xport] of the vendored wrapper; on
    success the result table lives in a freshly allocated engine buffer. *)
Definition Xport (eng : Engine) (x : Exporter) (startT endT step : Z) (es : EngineState)
    : Res XportResult * EngineState :=
  match eng_xport eng x startT endT step with
  | Ok d =>
      (Ok {| xr_data := d; xr_buf := Some (es_next es) |},
       {| es_live := es_next es :: es_live es; es_next := S (es_next es) |})
  | Err m => (Err m, es)
  | Panic m => (Panic m, es)
  end.

(** Modelled from the spec: [XportResult.FreeValues]. *)
Definition FreeValues (r : XportResult) (es : EngineState) : EngineState :=
  match xr_buf r with
  | None => es
  | Some b => {| es_live := List.remove Nat.eq_dec b (es_live es); es_next := es_next es |}
  end.

(** [data.ValueAt(index, i)]: row-major table. *)
Definition ValueAt (d : XportData) (index i : nat) : Res PlotValue :=
  match xd_values d !! (List.length (xd_Legends d) * i + index)%nat with
  | Some v => Ok v
  | None => Panic "runtime error: index out of range"
  end.

Fixpoint value_rows (d : XportData) (index : nat) (rows : list nat) : Res (list PlotValue) :=
  match rows with
  | [] => Ok []
  | i :: rest => v ← ValueAt d index i; vs ← value_rows d index rest; Ok (v :: vs)
  end.

(** Lines 336-343. *)
Fixpoint fill_plots (d : XportData) (index : nat) (legends : list string)
    (series : gmap string string) (result : gmap string PlotResult)
    : Res (gmap string PlotResult) :=
  match legends with
  | [] => Ok result
  | serieName :: rest =>
      let label := default "" (series !! serieName) in
      plots ← value_rows d index (seq 0 (xd_RowCnt d));
      fill_plots d (S index) rest series
        (<[label := {| Plots := plots; Info := ∅ |}]> result)
  end.

(* ------------------------------------------------------------------ *)
(** ** rrdGetData and GetPlots *)

(** [rrdGetData] returns the caller's query as it is after the call (it is
    passed by pointer), the result, and the engine state. *)
Definition rrdGetData (eng : Engine) (connector : RRDConnector) (query : GroupQuery)
    (startT endT step : Z) (percentiles : list Q) (infoOnly : bool) (es : EngineState)
    : GroupQuery * Res (gmap string PlotResult) * EngineState :=
  if Nat.eqb (List.length (gq_Series query)) 0 then (query, Err "group has no series", es)
  else
  let query := collapse_type query in
  match rrdCompile connector query percentiles infoOnly with
  | Err m => (query, Err m, es)
  | Panic m => (query, Panic m, es)
  | Ok st =>
      let data := XportResult_zero in
      let '(r1, es1) :=
        if infoOnly then (Ok ∅, es)
        else match Xport eng (cs_xport st) startT endT step es with
             | (Ok data', es') =>
                 (fill_plots (xr_data data') 0 (xd_Legends (xr_data data')) (cs_series st) ∅, es')
             | (Err m, es') => (Err m, es')
             | (Panic m, es') => (Panic m, es')
             end in
      match r1 with
      | Err m => (query, Err m, es1)
      | Panic m => (query, Panic m, es1)
      | Ok result =>
          match eng_graph eng (cs_graph st) startT endT with
          | Err m => (query, Err m, es1)
          | Panic m => (query, Panic m, es1)
          | Ok print =>
              match rrdParseInfo ParseFloat print result with
              | Ok result' => (query, Ok result', FreeValues data es1)
              | Err m => (query, Err m, es1)
              | Panic m => (query, Panic m, es1)
              end
          end
      end
  end.

Definition GetPlots (eng : Engine) (connector : RRDConnector) (query : GroupQuery)
    (startT endT step : Z) (percentiles : list Q) (es : EngineState)
    : GroupQuery * Res (gmap string PlotResult) * EngineState :=
  rrdGetData eng connector query startT endT step percentiles false es.

(* ------------------------------------------------------------------ *)
(** ** A reference engine for exports *)

Fixpoint split_commas_aux (s cur : string) : list string :=
  match s with
  | EmptyString => [cur]
  | String c s' =>
      if Ascii.eqb c ","%char then cur :: split_commas_aux s' ""
      else split_commas_aux s' (cur +:+ String c "")
  end.

Definition split_commas (s : string) : list string := split_commas_aux s "".

Definition arith (f : Q -> Q -> Q) (x y : PlotValue) : PlotValue :=
  match x, y with
  | PNum a, PNum b => PNum (f a b)
  | _, _ => PNaN
  end.

(** Modelled from the spec (section 6): one step of the engine's
    reverse-Polish evaluator; [UN] tests for the unknown value, [A,B,C,IF]
    selects [B] when [A] is non-zero and [C] otherwise, arithmetic on an
    unknown operand is unknown; a division by zero (an infinity in the
    engine) is outside the model and yields the unknown value. *)
Definition rpn_step (env : gmap string PlotValue) (tok : string) (stk : list PlotValue)
    : option (list PlotValue) :=
  if String.eqb tok "+" then
    match stk with y :: x :: r => Some (arith Qplus x y :: r) | _ => None end
  else if String.eqb tok "*" then
    match stk with y :: x :: r => Some (arith Qmult x y :: r) | _ => None end
  else if String.eqb tok "/" then
    match stk with
    | y :: x :: r =>
        Some ((match y with
               | PNum b => if Qeq_bool b 0 then PNaN else arith Qdiv x y
               | PNaN => PNaN
               end) :: r)
    | _ => None
    end
  else if String.eqb tok "UN" then
    match stk with
    | x :: r => Some ((match x with PNaN => PNum 1 | PNum _ => PNum 0 end) :: r)
    | _ => None
    end
  else if String.eqb tok "IF" then
    match stk with
    | c :: b :: a :: r =>
        Some ((match a with
               | PNum qa => if Qeq_bool qa 0 then c else b
               | PNaN => PNaN
               end) :: r)
    | _ => None
    end
  else match parse_decimal tok with
       | Some q => Some (PNum q :: stk)
       | None => match env !! tok with Some v => Some (v :: stk) | None => None end
       end.

Fixpoint rpn_run (env : gmap string PlotValue) (toks : list string) (stk : list PlotValue)
    : option (list PlotValue) :=
  match toks with
  | [] => Some stk
  | t :: ts => match rpn_step env t stk with Some stk' => rpn_run env ts stk' | None => None end
  end.

Definition rpn_eval (env : gmap string PlotValue) (expr : string) : option PlotValue :=
  match rpn_run env (split_commas expr) [] with
  | Some [v] => Some v
  | _ => None
  end.

(** Modelled from the spec (section 6): evaluation of an export program at
    one row; [fetch_row file ds] is the stored (AVERAGE) sample of the row. *)
Fixpoint run_row (fetch_row : string -> string -> PlotValue) (prog : list Instr)
    (env : gmap string PlotValue) : option (gmap string PlotValue) :=
  match prog with
  | [] => Some env
  | IDef v f ds _ :: rest => run_row fetch_row rest (<[v := fetch_row f ds]> env)
  | ICDef v e :: rest =>
      match rpn_eval env e with
      | Some x => run_row fetch_row rest (<[v := x]> env)
      | None => None
      end
  | _ :: rest => run_row fetch_row rest env
  end.

Fixpoint xport_columns (prog : list Instr) : list (string * string) :=
  match prog with
  | [] => []
  | IXportDef v l :: rest => (v, l) :: xport_columns rest
  | _ :: rest => xport_columns rest
  end.

Fixpoint row_values (env : gmap string PlotValue) (cols : list (string * string))
    : option (list PlotValue) :=
  match cols with
  | [] => Some []
  | (v, _) :: rest =>
      match env !! v, row_values env rest with
      | Some x, Some xs => Some (x :: xs)
      | _, _ => None
      end
  end.

Fixpoint table (fetch : nat -> string -> string -> PlotValue) (prog : list Instr)
    (cols : list (string * string)) (rows : list nat) : option (list PlotValue) :=
  match rows with
  | [] => Some []
  | r :: rs =>
      match run_row (fetch r) prog ∅ with
      | Some env =>
          match row_values env cols, table fetch prog cols rs with
          | Some xs, Some t => Some (xs ++ t)%list
          | _, _ => None
          end
      | None => None
      end
  end.

(** Modelled from the spec (section 6): the export run over
    [(endT - startT) / step] rows. *)
Definition ref_xport (fetch : nat -> string -> string -> PlotValue) (x : Exporter)
    (startT endT step : Z) : Res XportData :=
  let rows := Z.to_nat ((endT - startT) / step) in
  let cols := xport_columns (x_prog x) in
  match table fetch (x_prog x) cols (seq 0 rows) with
  | Some vs => Ok {| xd_Legends := map snd cols; xd_RowCnt := rows; xd_values := vs |}
  | None => Err "rrd: invalid expression"
  end.

Definition ref_engine (fetch : nat -> string -> string -> PlotValue)
    (graph : Grapher -> Z -> Z -> Res (list string)) : Engine :=
  {| eng_xport := ref_xport fetch; eng_graph := graph |}.

(* ------------------------------------------------------------------ *)
(** ** The connector factory registered by [init] (lines 32-63) *)

(** Values of a [map[string]interface{}] configuration. *)
Inductive CfgValue : Type :=
| CStr (s : string)
| CInt (z : Z)
| CBool (b : bool).

Definition cfg_string (v : option CfgValue) : option string :=
  match v with Some (CStr s) => Some s | _ => None end.

Definition rrd_factory (config : gmap string CfgValue) : Res RRDConnector :=
  if bool_decide (config !! "path" = None) then
    Err "missing `path' mandatory connector setting"
  else if bool_decide (config !! "pattern" = None) then
    Err "missing `pattern' mandatory connector setting"
  else
  match cfg_string (config !! "path") with
  | None => Err "connector setting `path' should be a string"
  | Some configPath =>
  match cfg_string (config !! "pattern") with
  | None => Err "connector setting `pattern' should be a string"
  | Some configPattern =>
  match cfg_string (config !! "daemon") with
  | None => Err "connector setting `daemon' should be a string"
  | Some configDaemon =>
      Ok {| Path := configPath; Pattern := configPattern; Daemon := configDaemon;
            metrics := ∅ |}
  end end end.

(* ------------------------------------------------------------------ *)
(** ** Refresh (lines 73-158) *)

(** A compiled [*regexp.Regexp]: its [SubexpNames] and [FindStringSubmatch]. *)
Record Regexp : Type :=
  { SubexpNames : list string; FindStringSubmatch : string -> list string }.

(** Modelled from the spec: the entries [utils.WalkDir] (outside src/)
    passes to the walk function, in visiting order; [WError] is a
    traversal failure handed over as the [err] argument. *)
Inductive WalkEntry : Type :=
| WFile (filePath : string) (regular : bool)
| WError (msg : string).

(** Lines 80-100: [None] when the keywords are valid, else the error sent. *)
Fixpoint check_keywords (names : list string) (src met : bool) : option string :=
  match names with
  | [] =>
      if negb src then Some "missing pattern keyword `source'"
      else if negb met then Some "missing pattern keyword `metric'"
      else None
  | key :: rest =>
      if String.eqb key "" then check_keywords rest src met
      else if String.eqb key "source" then check_keywords rest true met
      else if String.eqb key "metric" then check_keywords rest src true
      else Some ("invalid pattern keyword `" +:+ key +:+ "'")
  end.

Abbreviation catalog := (gmap string (gmap string rrdMetric)).

Definition nth_res (l : list string) (i : nat) : Res string :=
  match l !! i with
  | Some s => Ok s
  | None => Panic "runtime error: index out of range"
  end.

Section Refresh.
Variable connector : RRDConnector.
Variable re : Regexp.
(** [rrd.Info(filePath)]: [None] is an error, [Some None] an info map
    without ["ds.index"], [Some (Some l)] the dataset names in the order
    the map is ranged over. *)
Variable rrd_info : string -> option (option (list string)).

(** State of the walk: the catalog and the pairs sent on the output channel. *)
Definition rstate : Type := catalog * list (string * string).

Fixpoint add_datasets (sourceName metricName filePath : string) (dss : list string)
    (st : rstate) : rstate :=
  match dss with
  | [] => st
  | dsName :: rest =>
      let metricFullName := metricName +:+ "/" +:+ dsName in
      let '(m, out) := st in
      let inner := default ∅ (m !! sourceName) in
      add_datasets sourceName metricName filePath rest
        (<[sourceName := <[metricFullName := {| Dataset := dsName; FilePath := filePath |}]> inner]> m,
         (out ++ [(sourceName, metricFullName)])%list)
  end.

(** The walk function (lines 103-152); [Some e] is a returned error. *)
Definition walkFunc (e : WalkEntry) (st : rstate) : Res (rstate * option string) :=
  match e with
  | WError msg => Ok (st, Some msg)
  | WFile filePath regular =>
      if negb regular then Ok (st, None)
      else if Nat.ltb (String.length filePath) (String.length (Path connector) + 1) then
        Panic "runtime error: slice bounds out of range"
      else
      let rel := substring (String.length (Path connector) + 1)
                   (String.length filePath - (String.length (Path connector) + 1)) filePath in
      let submatch := FindStringSubmatch re rel in
      if Nat.eqb (List.length submatch) 0 then Ok (st, None)
      else
      n1 ← nth_res (SubexpNames re) 1;
      s1 ← nth_res submatch 1;
      s2 ← nth_res submatch 2;
      let '(sourceName, metricName) := if String.eqb n1 "source" then (s1, s2) else (s2, s1) in
      let '(m, out) := st in
      let m := match m !! sourceName with
               | Some _ => m
               | None => <[sourceName := ∅]> m
               end in
      match rrd_info filePath with
      | None => Ok ((m, out), None)
      | Some None => Ok ((m, out), None)
      | Some (Some dss) => Ok (add_datasets sourceName metricName filePath dss (m, out), None)
      end
  end.

(** Modelled from the spec: [utils.WalkDir] calls the walk function on each
    entry in order and stops at the first error it returns. *)
Fixpoint WalkDir (entries : list WalkEntry) (st : rstate) : Res (rstate * option string) :=
  match entries with
  | [] => Ok (st, None)
  | e :: rest =>
      r ← walkFunc e st;
      match r with
      | (st', None) => WalkDir rest st'
      | (st', Some err) => Ok (st', Some err)
      end
  end.

(** [Refresh]: the connector after the run (its [metrics] field is updated
    in place), the pairs sent on the output channel, the errors sent. *)
Definition Refresh (entries : list WalkEntry)
    : Res (RRDConnector * list (string * string) * list string) :=
  let with_metrics := fun (m : catalog) =>
    {| Path := Path connector; Pattern := Pattern connector; Daemon := Daemon connector;
       metrics := m |} in
  match check_keywords (SubexpNames re) false false with
  | Some err => Ok (connector, [], [err])
  | None =>
      r ← WalkDir entries (metrics connector, []);
      match r with
      | ((m, out), None) => Ok (with_metrics m, out, [])
      | ((m, out), Some err) => Ok (with_metrics m, out, [err])
      end
  end.
End Refresh.

(* ------------------------------------------------------------------ *)
(** ** Concrete inputs *)

Definition es0 : EngineState := {| es_live := []; es_next := 0 |}.

Definition cat0 : catalog :=
  {[ "host1" := {[ "cpu/value" := {| Dataset := "value"; FilePath := "/rrd/host1/cpu.rrd" |};
                   "mem/value" := {| Dataset := "value"; FilePath := "/rrd/host1/mem.rrd" |} ]} ]}.

Definition conn0 : RRDConnector :=
  {| Path := "/rrd"; Pattern := "(?P<source>[^/]+)/(?P<metric>.+)\.rrd"; Daemon := "";
     metrics := cat0 |}.

Definition s_cpu : SerieQuery :=
  {| sq_Name := "cpu"; sq_Metric := Some {| mq_Name := "cpu/value"; mq_SourceName := "host1" |};
     sq_Scale := 0 |}.
Definition s_mem : SerieQuery :=
  {| sq_Name := "mem"; sq_Metric := Some {| mq_Name := "mem/value"; mq_SourceName := "host1" |};
     sq_Scale := 0 |}.
Definition s_unres : SerieQuery := {| sq_Name := "gone"; sq_Metric := None; sq_Scale := 0 |}.

Definition mk_query (name : string) (ty : Z) (series : list SerieQuery) : GroupQuery :=
  {| gq_Name := name; gq_Type := ty; gq_Series := series; gq_Scale := 0 |}.

Definition q_sum2 : GroupQuery := mk_query "total" OperGroupTypeSum [s_cpu; s_mem].
Definition q_sum1 : GroupQuery := mk_query "total" OperGroupTypeSum [s_cpu].
Definition q_sum_partial : GroupQuery := mk_query "total" OperGroupTypeSum [s_unres; s_mem].
Definition q_avg_partial : GroupQuery := mk_query "total" OperGroupTypeAvg [s_mem; s_unres].

(** cpu is unknown at row 0 and 3 afterwards; mem is always 5. *)
Definition fetch0 (r : nat) (f ds : string) : PlotValue :=
  if String.eqb f "/rrd/host1/cpu.rrd" then (match r with O => PNaN | _ => PNum 3 end)
  else PNum 5.

Definition graph_ok (g : Grapher) (s e : Z) : Res (list string) :=
  Ok ["total,min,3.000000"; "total,avg,bad"].
Definition graph_fail (g : Grapher) (s e : Z) : Res (list string) :=
  Err "rrd: opening '/rrd/host1/mem.rrd': No such file or directory".

Definition eng0 : Engine := ref_engine fetch0 graph_ok.
Definition eng_graph_fail : Engine := ref_engine fetch0 graph_fail.
Definition eng_nostat : Engine := ref_engine fetch0 (fun _ _ _ => Ok []).


Definition cfg_no_daemon : gmap string CfgValue :=
  {[ "path" := CStr "/var/lib/collectd/rrd";
     "pattern" := CStr "(?P<source>[^/]+)/(?P<metric>.+)\.rrd" ]}.

(** [(?P<source>[^/]+)/(?P<metric>.+)\.rrd] on a relative path. *)
Definition match_source_metric (rel : string) : list string :=
  match split_first "/"%char rel with
  | Some (a, b) =>
      let n := String.length b in
      if (Nat.leb 5 n && String.eqb (substring (n - 4) 4 b) ".rrd" && negb (String.eqb a ""))%bool
      then [rel; a; substring 0 (n - 4) b] else []
  | None => []
  end.

Definition re0 : Regexp :=
  {| SubexpNames := [""; "source"; "metric"]; FindStringSubmatch := match_source_metric |}.

Definition info0 (f : string) : option (option (list string)) := Some (Some ["value"]).

Definition conn_empty : RRDConnector :=
  {| Path := "/rrd"; Pattern := Pattern conn0; Daemon := ""; metrics := ∅ |}.

Definition walk_cpu : list WalkEntry := [WFile "/rrd" false; WFile "/rrd/host1/cpu.rrd" true].
Definition walk_mem : list WalkEntry := [WFile "/rrd" false; WFile "/rrd/host1/mem.rrd" true].

(* ------------------------------------------------------------------ *)
(** ** Observations used in the statements *)

#[global] Instance Instr_eq_dec : EqDecision Instr.
Proof. solve_decision. Defined.

(** A series reference that resolves in the catalog. *)
Definition lookup_opt (ms : catalog) (m : MetricQuery) : option rrdMetric :=
  ms !! mq_SourceName m ≫= fun inner => inner !! mq_Name m.

(** The resolvable series with their position in [query.Series]. *)
Fixpoint resolved (ms : catalog) (index : nat) (series : list SerieQuery)
    : list (nat * rrdMetric) :=
  match series with
  | [] => []
  | serie :: rest =>
      match sq_Metric serie ≫= lookup_opt ms with
      | Some rm => (index, rm) :: resolved ms (S index) rest
      | None => resolved ms (S index) rest
      end
  end.

Definition tmp_name (serieName : string) (index : nat) : string :=
  serieName +:+ "-tmp" +:+ itoa index.

(** The reverse-Polish accumulation of lines 285-289. *)
Definition push_stack (stack : list string) (t : string) : list string :=
  match stack with [] => [t] | _ => (stack ++ [t; "+"])%list end.

(** A sample with the unknown value replaced by zero. *)
Definition zero_subst (v : PlotValue) : Q := match v with PNum q => q | PNaN => 0 end.

(** Statistic [k] and samples of label [l] in a merged result. *)
Definition stat (m : gmap string PlotResult) (l k : string) : option PlotValue :=
  m !! l ≫= fun pr => Info pr !! k.
Definition plots_of (m : gmap string PlotResult) (l : string) : list PlotValue :=
  default [] (Plots <$> m !! l).

(** The statistic line [line] is stored under label [l] and key [k]. *)
Definition binds (l k line : string) : Prop :=
  match SplitN line ","%char 3 with
  | c0 :: c1 :: _ :: _ => c0 = l /\ c1 = k
  | _ => False
  end.


Definition catalog_entry (m : catalog) (s k : string) : option rrdMetric :=
  m !! s ≫= fun inner => inner !! k.


(** The export/graph instructions of lines 265-283 for the resolved series. *)
Definition agg_prog (serieName : string) (L : list (nat * rrdMetric)) : list Instr :=
  List.concat (map (fun '(i, rm) =>
    [IDef (tmp_name serieName i +:+ "-ori") (FilePath rm) (Dataset rm) "AVERAGE";
     ICDef (tmp_name serieName i)
           (tmp_name serieName i +:+ "-ori,UN,0," +:+ tmp_name serieName i +:+ "-ori,IF")]) L).

Definition agg_stack (serieName : string) (L : list (nat * rrdMetric)) : list string :=
  fold_left push_stack (map (fun p => tmp_name serieName p.1) L) [].

(** No leading digit. *)
Definition nodigit (t : string) : Prop :=
  match t with EmptyString => True | String c _ => digit_val c = None end.

(** The sum of a list of samples. *)
Definition qsum (l : list Q) : Q := fold_right Qplus 0%Q l.

(** Every entry of [m] is an entry of [m']. *)
Definition cat_sub (m m' : catalog) : Prop :=
  forall s k, is_Some (catalog_entry m s k) -> is_Some (catalog_entry m' s k).

(** Every emitted pair has its entry. *)
Definition out_in (m : catalog) (out : list (string * string)) : Prop :=
  forall s k, (s, k) ∈ out -> is_Some (catalog_entry m s k).

Definition with_type (q : GroupQuery) (ty : Z) : GroupQuery :=
  {| gq_Name := gq_Name q; gq_Type := ty; gq_Series := gq_Series q; gq_Scale := gq_Scale q |}.

(** Entries the walk function does not skip as non-regular files. *)
Definition keep_entry (e : WalkEntry) : bool :=
  match e with WFile _ false => false | _ => true end.

(** Pattern keywords accepted by lines 80-100. *)
Definition valid_keywords (names : list string) : Prop :=
  (forall k, k ∈ names -> k = "" \/ k = "source" \/ k = "metric") /\
  "source" ∈ names /\ "metric" ∈ names.

(** [filePath[len(connector.Path)+1:]] of line 117. *)
Definition rel_path (c : RRDConnector) (filePath : string) : string :=
  substring (String.length (Path c) + 1)
    (String.length filePath - (String.length (Path c) + 1)) filePath.

(** A pattern with a keyword other than [source] and [metric]. *)
Definition re_host : Regexp :=
  {| SubexpNames := [""; "host"; "metric"]; FindStringSubmatch := match_source_metric |}.

Definition info_fail (f : string) : option (option (list string)) := None.

(** A series naming a metric absent from [conn0]'s catalog. *)
Definition s_bad : SerieQuery :=
  {| sq_Name := "disk"; sq_Metric := Some {| mq_Name := "disk/value"; mq_SourceName := "host1" |};
     sq_Scale := 0 |}.
Definition q_bad : GroupQuery := mk_query "total" OperGroupTypeSum [s_cpu; s_bad].
Definition q_type7 : GroupQuery := mk_query "total" 7 [s_cpu; s_mem].

(** Some series of the list names a metric the catalog lacks. *)
Definition has_missing (ms : catalog) (series : list SerieQuery) : Prop :=
  exists serie mq, serie ∈ series /\ sq_Metric serie = Some mq /\ lookup_opt ms mq = None.

(** The series that name a metric, in order. *)
Definition with_metric (series : list SerieQuery) : list SerieQuery :=
  List.filter (fun s => match sq_Metric s with Some _ => true | None => false end) series.

Definition q_none3 : GroupQuery := mk_query "total" OperGroupTypeNone [s_cpu; s_unres; s_mem].

(** A two-column, three-row export table and its label table. *)
Definition xd_two : XportData :=
  {| xd_Legends := ["serie0"; "serie1"]; xd_RowCnt := 3;
     xd_values := [PNum 1; PNum 5; PNaN; PNum 5; PNum 3; PNum 5] |}.
Definition series_two : gmap string string := <["serie1" := "mem"]> (<["serie0" := "cpu"]> ∅).

(** The label field of a statistic line, when it has the three fields
    [label,key,value] that [rrdParseInfo] reads. *)
Definition line_label (value : string) : option string :=
  match SplitN value ","%char 3 with
  | c0 :: _ :: _ :: _ => Some c0
  | _ => None
  end.

(* ================================================================== *)
(** * Theorems *)

(** C5 (code_bug): a configuration with string [path] and [pattern] and no
    [daemon] key is rejected: the type assertion on the missing key fails. *)
Theorem factory_rejects_missing_daemon :
  rrd_factory cfg_no_daemon = Err "connector setting `daemon' should be a string".
Proof. vm_compute. reflexivity. Qed.

(** C6 (code_bug): after a successful [GetPlots] and after one whose
    graph-information run fails, the buffer allocated by the export is
    still held: the success path frees the shadowed zero [data], the
    failure path returns before any release. *)
Theorem getplots_leaks_export_buffer :
  (let '(_, r, es) := GetPlots eng0 conn0 q_sum2 0 2 1 [] es0 in
   (exists m, r = Ok m) /\ es_live es = [0%nat]) /\
  (let '(_, r, es) := GetPlots eng_graph_fail conn0 q_sum2 0 2 1 [] es0 in
   (exists m, r = Err m) /\ es_live es = [0%nat]).
Proof. vm_compute. split; split; eauto. Qed.

(** C1 (counterexample): an Avg query over [mem] and an unresolved series
    divides by 2, the configured count, though a single series resolves;
    the merged samples are half of mem's value 5. *)
Theorem avg_divisor_resolvable_cex :
  List.length (resolved (metrics conn0) 0 (gq_Series q_avg_partial)) = 1%nat /\
  (exists st, rrdCompile conn0 q_avg_partial [] false = Ok st /\
     ICDef "serie0-orig" "serie0-tmp0,2,/" ∈ x_prog (cs_xport st) /\
     ICDef "serie0-orig" "serie0-tmp0,1,/" ∉ x_prog (cs_xport st)) /\
  (let '(_, r, _) := GetPlots eng0 conn0 q_avg_partial 0 2 1 [] es0 in
   r ≫= (fun m => Ok (plots_of m "total"))) = Ok [PNum (5 # 2); PNum (5 # 2)].
Proof.
  split; [vm_compute; reflexivity |].
  split; [| vm_compute; reflexivity].
  eexists; split; [vm_compute; reflexivity |].
  split; apply (bool_decide_unpack _); vm_compute; reflexivity.
Qed.

(** C2 (counterexample): with two configured series of which only [mem]
    resolves, a Sum query is not collapsed; its result is labelled with the
    group's name, whereas the None-mode rules label it [mem]. *)
Theorem collapse_needs_one_configured_series_cex :
  List.length (resolved (metrics conn0) 0 (gq_Series q_sum_partial)) = 1%nat /\
  gq_Type (collapse_type q_sum_partial) = OperGroupTypeSum /\
  (let '(_, r, _) := GetPlots eng_nostat conn0 q_sum_partial 0 2 1 [] es0 in
   r ≫= (fun m => Ok (map fst (map_to_list m)))) = Ok ["total"] /\
  (let '(_, r, _) := GetPlots eng_nostat conn0 (with_type q_sum_partial OperGroupTypeNone)
                       0 2 1 [] es0 in
   r ≫= (fun m => Ok (map fst (map_to_list m)))) = Ok ["mem"].
Proof. vm_compute. repeat split. Qed.

(** C3 (counterexample): [GetPlots] on a one-series Sum query overwrites
    the caller's query type with None. *)
Theorem getplots_writes_query_type_cex :
  gq_Type q_sum1 = OperGroupTypeSum /\
  (let '(q', _, _) := GetPlots eng0 conn0 q_sum1 0 2 1 [] es0 in gq_Type q')
    = OperGroupTypeNone.
Proof. vm_compute. split; reflexivity. Qed.

(** C4 (counterexample): a second [Refresh] that only finds mem's archive
    keeps the cpu entry found by the first run. *)
Theorem refresh_keeps_stale_entry_cex :
  match Refresh conn_empty re0 info0 walk_cpu with
  | Ok (c1, _, _) =>
      match Refresh c1 re0 info0 walk_mem with
      | Ok (c2, out2, _) =>
          out2 = [("host1", "mem/value")] /\
          catalog_entry (metrics c2) "host1" "cpu/value"
            = Some {| Dataset := "value"; FilePath := "/rrd/host1/cpu.rrd" |}
      | _ => False
      end
  | _ => False
  end.
Proof. vm_compute. split; reflexivity. Qed.

(* ------------------------------------------------------------------ *)
(** ** Splitting statistic lines *)

Lemma count_char_app (c : ascii) (a b : string) :
  count_char c (a +:+ b) = (count_char c a + count_char c b)%nat.
Proof. induction a as [| x a IH]; simpl; [reflexivity | rewrite IH; lia]. Qed.

Lemma split_first_none (c : ascii) (s : string) :
  split_first c s = None -> count_char c s = 0%nat.
Proof.
  induction s as [| x s IH]; simpl; [reflexivity |].
  destruct (Ascii.eqb x c) eqn:E; [discriminate |].
  destruct (split_first c s) as [[a b] |]; [discriminate |].
  intros _. rewrite IH by reflexivity. reflexivity.
Qed.

Lemma split_first_some (c : ascii) (s a b : string) :
  split_first c s = Some (a, b) ->
  s = a +:+ String c b /\ count_char c a = 0%nat /\ count_char c s = S (count_char c b).
Proof.
  revert a b. induction s as [| x s IH]; intros a b; simpl; [discriminate |].
  destruct (Ascii.eqb x c) eqn:E.
  - intros H. injection H as <- <-. apply Ascii.eqb_eq in E. subst x.
    simpl. rewrite ?Ascii.eqb_refl. auto.
  - destruct (split_first c s) as [[a' b'] |] eqn:Hs; [| discriminate].
    intros H. injection H as <- <-.
    destruct (IH a' b' eq_refl) as (-> & Ha & Hc).
    simpl. rewrite E. simpl. rewrite count_char_app in *. simpl in *. rewrite ?Ascii.eqb_refl in *.
    repeat split; lia.
Qed.

Lemma split_first_comma_free (c : ascii) (a b : string) :
  count_char c a = 0%nat -> split_first c (a +:+ String c b) = Some (a, b).
Proof.
  induction a as [| x a IH]; simpl; intros H.
  - rewrite Ascii.eqb_refl. reflexivity.
  - destruct (Ascii.eqb x c) eqn:E; [discriminate |]. rewrite IH by exact H. reflexivity.
Qed.

Lemma split_first_at_comma (a b : string) :
  count_char ","%char a = 0%nat -> split_first ","%char (a +:+ "," +:+ b) = Some (a, b).
Proof. apply split_first_comma_free. Qed.

(** The three-way split of a statistic line. *)
Lemma SplitN3_cases (s : string) :
  (count_char ","%char s < 2 /\ List.length (SplitN s ","%char 3) < 3)%nat \/
  (exists c0 c1 c2, SplitN s ","%char 3 = [c0; c1; c2] /\ 2 <= count_char ","%char s)%nat.
Proof.
  simpl. destruct (split_first ","%char s) as [[a b] |] eqn:H1.
  - destruct (split_first_some _ _ _ _ H1) as (_ & _ & Hc).
    destruct (split_first ","%char b) as [[a' b'] |] eqn:H2.
    + destruct (split_first_some _ _ _ _ H2) as (_ & _ & Hc').
      right. exists a, a', b'. split; [reflexivity | lia].
    + apply split_first_none in H2. left. simpl. lia.
  - apply split_first_none in H1. left. simpl. lia.
Qed.

Lemma parse_info_line_cases (pf : string -> option PlotValue) (v : string)
    (d : gmap string PlotResult) :
  ((2 <= count_char ","%char v)%nat /\ exists d', parse_info_line pf v d = Ok d') \/
  ((count_char ","%char v < 2)%nat /\ exists m, parse_info_line pf v d = Panic m).
Proof.
  unfold parse_info_line.
  destruct (SplitN3_cases v) as [[Hc Hl] | (c0 & c1 & c2 & -> & Hc)].
  - right. split; [exact Hc |].
    destruct (SplitN v ","%char 3) as [| x [| y [| z l]]]; simpl in Hl; try lia; eauto.
  - left. split; [exact Hc | eauto].
Qed.

(** C10: [rrdParseInfo] runs to completion exactly when every statistic
    line has at least two commas; a line with fewer makes the access to
    the third split field go out of bounds, as for ["total,min"]. *)
Theorem parse_info_total_iff_two_commas :
  (forall (pf : string -> option PlotValue) (print : list string) (data : gmap string PlotResult),
     (exists r, rrdParseInfo pf print data = Ok r) <->
     Forall (fun v => 2 <= count_char ","%char v)%nat print) /\
  (count_char ","%char "total,min" < 2)%nat /\
  rrdParseInfo ParseFloat ["total,min"] ∅ = Panic "runtime error: index out of range [2]".
Proof.
  split; [| split; [vm_compute; lia | vm_compute; reflexivity]].
  intros pf print. induction print as [| v rest IH]; intros data; simpl.
  - split; [intros _; constructor | intros _; eauto].
  - destruct (parse_info_line_cases pf v data) as [[Hc [d' Hd]] | [Hc [m Hm]]].
    + rewrite Hd. cbn [mbind res_bind]. rewrite IH. split.
      * intros H. constructor; assumption.
      * intros H. inversion H; assumption.
    + rewrite Hm. cbn [mbind res_bind]. split.
      * intros [r Hr]. discriminate.
      * intros H. inversion H. lia.
Qed.

(* ------------------------------------------------------------------ *)
(** ** Merging statistic lines *)

Lemma rrdParseInfo_app (pf : string -> option PlotValue) (a b : list string)
    (d : gmap string PlotResult) :
  rrdParseInfo pf (a ++ b) d = (rrdParseInfo pf a d ≫= rrdParseInfo pf b).
Proof.
  revert d. induction a as [| v a IH]; intros d; simpl; [reflexivity |].
  destruct (parse_info_line pf v d); simpl; [apply IH | reflexivity | reflexivity].
Qed.

Lemma parse_info_line_spec (pf : string -> option PlotValue) (v : string)
    (d d' : gmap string PlotResult) :
  parse_info_line pf v d = Ok d' ->
  (forall l, plots_of d' l = plots_of d l) /\
  (forall l k, ~ binds l k v -> stat d' l k = stat d l k) /\
  (forall c0 c1 c2, SplitN v ","%char 3 = [c0; c1; c2] ->
     stat d' c0 c1 = Some (match pf c2 with Some f => f | None => PNaN end)).
Proof.
  unfold parse_info_line, binds.
  destruct (SplitN3_cases v) as [[Hc Hl] | (c0 & c1 & c2 & Hs & Hc)].
  - destruct (SplitN v ","%char 3) as [| x [| y [| z l]]]; simpl in Hl; try lia;
      discriminate.
  - rewrite Hs. intros H. injection H as <-. split; [| split].
    + intros l. unfold plots_of. destruct (decide (l = c0)) as [-> |].
      * rewrite lookup_insert_eq. destruct (d !! c0); reflexivity.
      * rewrite lookup_insert_ne by congruence. reflexivity.
    + intros l k Hnb. unfold stat. destruct (decide (l = c0)) as [-> |].
      * rewrite lookup_insert_eq. simpl.
        assert (k <> c1) by (intros ->; apply Hnb; auto).
        rewrite lookup_insert_ne by congruence.
        destruct (d !! c0); reflexivity.
      * rewrite lookup_insert_ne by congruence. reflexivity.
    + intros a b c Habc. injection Habc as <- <- <-.
      unfold stat. rewrite lookup_insert_eq. simpl. rewrite lookup_insert_eq. reflexivity.
Qed.

(** Running the same lines on two maps that agree on samples and on every
    statistic but one keeps them so; that statistic stays put when no line
    rebinds it. *)
Lemma parse_info_related (pf : string -> option PlotValue) (label key : string)
    (lines : list string) :
  forall (d1 d2 r2 : gmap string PlotResult),
  (forall l, plots_of d1 l = plots_of d2 l) ->
  (forall l k, (l, k) <> (label, key) -> stat d1 l k = stat d2 l k) ->
  rrdParseInfo pf lines d2 = Ok r2 ->
  exists r1, rrdParseInfo pf lines d1 = Ok r1 /\
    (forall l, plots_of r1 l = plots_of r2 l) /\
    (forall l k, (l, k) <> (label, key) -> stat r1 l k = stat r2 l k) /\
    ((forall line, line ∈ lines -> ~ binds label key line) ->
     stat r1 label key = stat d1 label key).
Proof.
  induction lines as [| v rest IH]; intros d1 d2 r2 Hp Hs Hrun; simpl in *.
  - injection Hrun as <-. exists d1. auto.
  - destruct (parse_info_line pf v d2) as [d2' | m | m] eqn:E2; simpl in Hrun;
      try discriminate.
    destruct (parse_info_line_cases pf v d1) as [[Hc [d1' E1]] | [Hc [m E1]]].
    2:{ destruct (parse_info_line_cases pf v d2) as [[Hc' [? E2']] | [? [? E2']]];
        [lia | congruence]. }
    destruct (parse_info_line_spec _ _ _ _ E1) as (Hp1 & Hs1 & Hb1).
    destruct (parse_info_line_spec _ _ _ _ E2) as (Hp2 & Hs2 & Hb2).
    destruct (IH d1' d2' r2) as (r1 & Hr1 & Hpr & Hsr & Hkr); [| | exact Hrun |].
    + intros l. rewrite Hp1, Hp2. apply Hp.
    + intros l k Hne. destruct (SplitN3_cases v) as [[Hc' _] | (c0 & c1 & c2 & Hsp & _)];
        [lia |].
      destruct (decide (l = c0 /\ k = c1)) as [[-> ->] | Hn].
      * rewrite (Hb1 _ _ _ Hsp), (Hb2 _ _ _ Hsp). reflexivity.
      * assert (~ binds l k v) as Hnb
          by (unfold binds; rewrite Hsp; intros [<- <-]; apply Hn; auto).
        rewrite (Hs1 _ _ Hnb), (Hs2 _ _ Hnb). apply Hs, Hne.
    + exists r1. rewrite E1. simpl. split; [exact Hr1 |]. split; [exact Hpr |].
      split; [exact Hsr |]. intros Hnone.
      rewrite Hkr by (intros line Hin; apply Hnone; set_solver).
      apply Hs1, Hnone. set_solver.
Qed.

(** C9: a statistic line [label,key,value] whose value does not parse
    stores not-a-number under [label] and [key] instead of failing, and
    leaves every other statistic and every sample sequence as they are
    without that line. *)
Theorem parse_info_malformed_value_nan (pf : string -> option PlotValue)
    (pre post : list string) (label key v : string) (data r0 : gmap string PlotResult) :
  count_char ","%char label = 0%nat ->
  count_char ","%char key = 0%nat ->
  pf v = None ->
  (forall line, line ∈ post -> ~ binds label key line) ->
  rrdParseInfo pf (pre ++ post) data = Ok r0 ->
  exists r, rrdParseInfo pf (pre ++ (label +:+ "," +:+ key +:+ "," +:+ v) :: post) data = Ok r /\
    stat r label key = Some PNaN /\
    (forall l k, (l, k) <> (label, key) -> stat r l k = stat r0 l k) /\
    (forall l, plots_of r l = plots_of r0 l).
Proof.
  intros Hl Hk Hv Hpost Hrun.
  rewrite rrdParseInfo_app in Hrun |- *.
  destruct (rrdParseInfo pf pre data) as [dm | m | m]; simpl in Hrun |- *; try discriminate.
  assert (SplitN (label +:+ "," +:+ key +:+ "," +:+ v) ","%char 3 = [label; key; v]) as Hsp.
  { simpl. rewrite split_first_at_comma by exact Hl.
    rewrite split_first_at_comma by exact Hk. reflexivity. }
  assert (exists d', parse_info_line pf (label +:+ "," +:+ key +:+ "," +:+ v) dm = Ok d')
    as [d' Hd'].
  { unfold parse_info_line. rewrite Hsp. eauto. }
  destruct (parse_info_line_spec _ _ _ _ Hd') as (Hp1 & Hs1 & Hb1).
  destruct (parse_info_related pf label key post d' dm r0) as (r & Hr & Hpr & Hsr & Hkr).
  - exact Hp1.
  - intros l k Hne. apply Hs1. unfold binds. rewrite Hsp. intros [-> ->]. apply Hne. reflexivity.
  - exact Hrun.
  - exists r. rewrite Hd'. simpl. split; [exact Hr |]. split.
    + rewrite Hkr by exact Hpost. rewrite (Hb1 _ _ _ Hsp), Hv. reflexivity.
    + split; assumption.
Qed.

Lemma parse_info_malformed_value_nan_witness :
  count_char ","%char "total" = 0%nat /\ count_char ","%char "avg" = 0%nat /\
  ParseFloat "bad" = None /\
  exists r, rrdParseInfo ParseFloat (["total,min,3"] ++ ("total" +:+ "," +:+ "avg" +:+ "," +:+ "bad")
                                      :: ["total,max,7"]) ∅ = Ok r /\
    stat r "total" "avg" = Some PNaN /\
    (forall l k, (l, k) <> ("total", "avg") ->
       stat r l k = stat (match rrdParseInfo ParseFloat (["total,min,3"] ++ ["total,max,7"]) ∅
                          with Ok r0 => r0 | _ => ∅ end) l k) /\
    (forall l, plots_of r l = plots_of (match rrdParseInfo ParseFloat
                   (["total,min,3"] ++ ["total,max,7"]) ∅ with Ok r0 => r0 | _ => ∅ end) l).
Proof.
  split; [reflexivity |]. split; [reflexivity |]. split; [reflexivity |].
  apply (parse_info_malformed_value_nan ParseFloat ["total,min,3"] ["total,max,7"]
           "total" "avg" "bad" ∅).
  - reflexivity.
  - reflexivity.
  - reflexivity.
  - intros line Hin. apply list_elem_of_singleton in Hin. subst line.
    vm_compute. intros [_ H]. discriminate.
  - vm_compute. reflexivity.
Defined.

(* ------------------------------------------------------------------ *)
(** ** Percentile keys *)

Lemma append_empty_r (s : string) : s +:+ "" = s.
Proof.
  induction s as [| c s IH]; [reflexivity |].
  change (String c (s +:+ "") = String c s). rewrite IH. reflexivity.
Qed.

Lemma append_assoc_str (a b c : string) : (a +:+ b) +:+ c = a +:+ (b +:+ c).
Proof.
  induction a as [| x a IH]; [reflexivity |].
  change (String x ((a +:+ b) +:+ c) = String x (a +:+ (b +:+ c))). rewrite IH. reflexivity.
Qed.















Lemma parse_info_total_iff_two_commas_witness :
  Forall (fun v => 2 <= count_char ","%char v)%nat ["total,min,3"; "total,avg,bad"] /\
  exists r, rrdParseInfo ParseFloat ["total,min,3"; "total,avg,bad"] ∅ = Ok r.
Proof.
  assert (Forall (fun v => 2 <= count_char ","%char v)%nat ["total,min,3"; "total,avg,bad"])
    as H by (repeat constructor; vm_compute; lia).
  split; [exact H |].
  apply (proj2 (proj1 parse_info_total_iff_two_commas ParseFloat _ ∅) H).
Defined.

(* ------------------------------------------------------------------ *)
(** ** The caller's query across GetPlots *)

Lemma collapse_type_series (q : GroupQuery) : gq_Series (collapse_type q) = gq_Series q.
Proof. unfold collapse_type. case_match; reflexivity. Qed.

Lemma collapse_type_idem (q : GroupQuery) : collapse_type (collapse_type q) = collapse_type q.
Proof.
  unfold collapse_type. destruct (negb (gq_Type q =? OperGroupTypeNone)%Z && _)%bool eqn:E;
    simpl; [| rewrite E; reflexivity].
  reflexivity.
Qed.

Lemma rrdGetData_returns_collapsed (eng : Engine) (c : RRDConnector) (q : GroupQuery)
    (s e st : Z) (pcts : list Q) (io : bool) (es : EngineState) :
  (rrdGetData eng c q s e st pcts io es).1.1 = collapse_type q.
Proof.
  unfold rrdGetData. destruct (Nat.eqb (List.length (gq_Series q)) 0) eqn:E0.
  - simpl. unfold collapse_type. apply Nat.eqb_eq in E0. rewrite E0.
    rewrite andb_false_r. reflexivity.
  - repeat case_match; simplify_eq; reflexivity.
Qed.

Lemma rrdGetData_on_collapsed (eng : Engine) (c : RRDConnector) (q : GroupQuery)
    (s e st : Z) (pcts : list Q) (io : bool) (es : EngineState) :
  rrdGetData eng c (collapse_type q) s e st pcts io es = rrdGetData eng c q s e st pcts io es.
Proof.
  unfold rrdGetData. rewrite collapse_type_series, collapse_type_idem.
  destruct (Nat.eqb (List.length (gq_Series q)) 0) eqn:E0; [| reflexivity].
  unfold collapse_type. apply Nat.eqb_eq in E0. rewrite E0, andb_false_r. reflexivity.
Qed.

(** C3 (amended): the only write [GetPlots] makes outside its own result is
    to the caller's query, whose type becomes None when the query has
    exactly one series and another type; name, series and scale are kept,
    and a second run on the updated query gives the same outcome and
    leaves the query as it is. *)
Theorem getplots_query_write_idempotent (eng : Engine) (c : RRDConnector) (q : GroupQuery)
    (s e step : Z) (pcts : list Q) (es : EngineState) :
  let '(q', r, es') := GetPlots eng c q s e step pcts es in
  gq_Name q' = gq_Name q /\ gq_Series q' = gq_Series q /\ gq_Scale q' = gq_Scale q /\
  gq_Type q' = (if (negb (gq_Type q =? OperGroupTypeNone)%Z
                    && Nat.eqb (List.length (gq_Series q)) 1)%bool
                then OperGroupTypeNone else gq_Type q) /\
  GetPlots eng c q' s e step pcts es = (q', r, es').
Proof.
  unfold GetPlots.
  pose proof (rrdGetData_returns_collapsed eng c q s e step pcts false es) as Hq.
  pose proof (rrdGetData_on_collapsed eng c q s e step pcts false es) as Hc.
  destruct (rrdGetData eng c q s e step pcts false es) as [[q' r] es'] eqn:E.
  simpl in Hq. subst q'. rewrite Hc.
  unfold collapse_type. case_match; simpl; auto.
Qed.

(* ------------------------------------------------------------------ *)
(** ** Refresh merges into the catalog *)

Lemma cat_sub_refl (m : catalog) : cat_sub m m.
Proof. intros s k H. exact H. Qed.

Lemma cat_sub_trans (m1 m2 m3 : catalog) : cat_sub m1 m2 -> cat_sub m2 m3 -> cat_sub m1 m3.
Proof. intros H1 H2 s k H. apply H2, H1, H. Qed.

Lemma cat_insert_entry (m : catalog) (sn k : string) (v : rrdMetric) :
  let m' := <[sn := <[k := v]> (default ∅ (m !! sn))]> m in
  cat_sub m m' /\ is_Some (catalog_entry m' sn k).
Proof.
  cbv zeta. unfold cat_sub, catalog_entry. split.
  - intros s k' H. destruct (decide (s = sn)) as [-> |].
    + rewrite lookup_insert_eq. cbn [mbind option_bind]. destruct (decide (k' = k)) as [-> |].
      * rewrite lookup_insert_eq. eauto.
      * rewrite lookup_insert_ne by congruence.
        destruct (m !! sn); cbn [mbind option_bind default] in *;
          [exact H | destruct H as [? Hx]; discriminate].
    + rewrite lookup_insert_ne by congruence. exact H.
  - rewrite lookup_insert_eq. cbn [mbind option_bind]. rewrite lookup_insert_eq. eauto.
Qed.

Lemma add_datasets_mono (sn mn fp : string) (dss : list string) :
  forall (m m' : catalog) (out out' : list (string * string)),
  add_datasets sn mn fp dss (m, out) = (m', out') ->
  out_in m out -> cat_sub m m' /\ out_in m' out'.
Proof.
  induction dss as [| ds rest IH]; intros m m' out out' E Hout; simpl in E.
  - injection E as <- <-. split; [apply cat_sub_refl | exact Hout].
  - destruct (cat_insert_entry m sn (mn +:+ "/" +:+ ds) {| Dataset := ds; FilePath := fp |})
      as [Hsub Hnew].
    apply IH in E as [Hsub' Hout'].
    + split; [exact (cat_sub_trans _ _ _ Hsub Hsub') | exact Hout'].
    + intros s k Hin. apply elem_of_app in Hin as [Hin | Hin].
      * apply Hsub, Hout, Hin.
      * apply list_elem_of_singleton in Hin. injection Hin as -> ->. exact Hnew.
Qed.

Lemma walkFunc_mono (c : RRDConnector) (re : Regexp)
    (info : string -> option (option (list string))) (e : WalkEntry) :
  forall (m m' : catalog) (out out' : list (string * string)) (err : option string),
  walkFunc c re info e (m, out) = Ok ((m', out'), err) ->
  out_in m out -> cat_sub m m' /\ out_in m' out'.
Proof.
  intros m m' out out' err E Hout. unfold walkFunc in E.
  destruct e as [filePath regular | msg].
  2:{ injection E as <- <- _. split; [apply cat_sub_refl | exact Hout]. }
  destruct regular; simpl in E.
  2:{ injection E as <- <- _. split; [apply cat_sub_refl | exact Hout]. }
  destruct (Nat.ltb _ _); [discriminate |].
  destruct (Nat.eqb _ 0).
  { injection E as <- <- _. split; [apply cat_sub_refl | exact Hout]. }
  destruct (nth_res (SubexpNames re) 1) as [n1 | | ]; simpl in E; try discriminate.
  destruct (nth_res (FindStringSubmatch re _) 1) as [s1 | | ]; simpl in E; try discriminate.
  destruct (nth_res (FindStringSubmatch re _) 2) as [s2 | | ]; simpl in E; try discriminate.
  destruct (if String.eqb n1 "source" then (s1, s2) else (s2, s1)) as [sn mn].
  set (m1 := match m !! sn with Some _ => m | None => <[sn := ∅]> m end) in E.
  assert (cat_sub m m1) as Hsub1.
  { unfold m1. destruct (m !! sn) eqn:Hm; [apply cat_sub_refl |].
    intros s k H. unfold catalog_entry in *. destruct (decide (s = sn)) as [-> |].
    - rewrite Hm in H. destruct H as [? Hx]. discriminate.
    - rewrite lookup_insert_ne by congruence. exact H. }
  assert (out_in m1 out) as Hout1 by (intros s k Hin; apply Hsub1, Hout, Hin).
  destruct (info filePath) as [[dss |] |].
  - injection E as E _. apply add_datasets_mono in E as [Hsub2 Hout2]; [| exact Hout1].
    split; [exact (cat_sub_trans _ _ _ Hsub1 Hsub2) | exact Hout2].
  - injection E as <- <- _. split; assumption.
  - injection E as <- <- _. split; assumption.
Qed.

Lemma WalkDir_mono (c : RRDConnector) (re : Regexp)
    (info : string -> option (option (list string))) (entries : list WalkEntry) :
  forall (m m' : catalog) (out out' : list (string * string)) (err : option string),
  WalkDir c re info entries (m, out) = Ok ((m', out'), err) ->
  out_in m out -> cat_sub m m' /\ out_in m' out'.
Proof.
  induction entries as [| e rest IH]; intros m m' out out' err E Hout; simpl in E.
  - injection E as <- <- _. split; [apply cat_sub_refl | exact Hout].
  - destruct (walkFunc c re info e (m, out)) as [[[m1 out1] [err1 |]] | | ] eqn:Ew;
      simpl in E; try discriminate.
    + injection E as <- <- _. eapply walkFunc_mono; eauto.
    + destruct (walkFunc_mono c re info e m m1 out out1 None Ew Hout) as [Hs1 Ho1].
      destruct (IH m1 m' out1 out' err E Ho1) as [Hs2 Ho2].
      split; [exact (cat_sub_trans _ _ _ Hs1 Hs2) | exact Ho2].
Qed.

(** C4 (amended): [Refresh] merges what it discovers into the existing
    catalog in place: every entry of the catalog before the run is still
    present afterwards (possibly overwritten by a rediscovered one), and
    every pair the run sent on the output channel has its entry. *)
Theorem refresh_merges_into_catalog (c : RRDConnector) (re : Regexp)
    (info : string -> option (option (list string))) (entries : list WalkEntry)
    (c' : RRDConnector) (out : list (string * string)) (errs : list string) :
  Refresh c re info entries = Ok (c', out, errs) ->
  (forall s k, is_Some (catalog_entry (metrics c) s k) -> is_Some (catalog_entry (metrics c') s k)) /\
  (forall s k, (s, k) ∈ out -> is_Some (catalog_entry (metrics c') s k)).
Proof.
  unfold Refresh. destruct (check_keywords (SubexpNames re) false false) as [kerr |].
  - intros E. injection E as <- <- _. split; [auto | intros s k Hin; inversion Hin].
  - destruct (WalkDir c re info entries (metrics c, [])) as [[[m' out'] err] | | ] eqn:E;
      simpl; try discriminate.
    assert (out_in (metrics c) []) as H0 by (intros s k Hin; inversion Hin).
    destruct (WalkDir_mono c re info entries _ _ _ _ _ E H0) as [Hs Ho].
    destruct err; intros E'; injection E' as <- <- _; simpl; split; assumption.
Qed.

Lemma refresh_merges_into_catalog_witness :
  exists c1,
  Refresh conn_empty re0 info0 walk_cpu = Ok (c1, [("host1", "cpu/value")], []) /\
  exists c2, Refresh c1 re0 info0 walk_mem = Ok (c2, [("host1", "mem/value")], []) /\
  ((forall s k, is_Some (catalog_entry (metrics c1) s k) -> is_Some (catalog_entry (metrics c2) s k)) /\
   (forall s k, (s, k) ∈ [("host1", "mem/value")] -> is_Some (catalog_entry (metrics c2) s k))).
Proof.
  eexists. split; [vm_compute; reflexivity |].
  eexists. split; [vm_compute; reflexivity |].
  apply (refresh_merges_into_catalog _ re0 info0 walk_mem _ _ []).
  vm_compute. reflexivity.
Defined.

(* ------------------------------------------------------------------ *)
(** ** Compilation of Sum and Avg queries *)

Lemma metric_lookup_ok (ms : catalog) (mq : MetricQuery) (rm : rrdMetric) :
  metric_lookup ms mq = Ok rm <-> lookup_opt ms mq = Some rm.
Proof.
  unfold metric_lookup, lookup_opt.
  destruct (ms !! mq_SourceName mq) as [inner |]; simpl; [| split; discriminate].
  destruct (inner !! mq_Name mq); split; congruence.
Qed.

Lemma agg_loop_spec (c : RRDConnector) (io : bool) (sn : string) (series : list SerieQuery) :
  forall (idx : nat) (st st' : CState),
  agg_loop c io sn idx series st = Ok st' ->
  let L := resolved (metrics c) idx series in
  cs_stack st' = fold_left push_stack (map (fun p => tmp_name sn p.1) L) (cs_stack st) /\
  cs_series st' = cs_series st /\ cs_count st' = cs_count st /\
  g_prog (cs_graph st') = (g_prog (cs_graph st) ++ agg_prog sn L)%list /\
  (io = false -> x_prog (cs_xport st') = (x_prog (cs_xport st) ++ agg_prog sn L)%list).
Proof.
  induction series as [| serie rest IH]; intros idx st st' E; simpl in E |- *.
  - injection E as <-. unfold agg_prog. simpl. rewrite !app_nil_r. auto.
  - destruct (sq_Metric serie) as [mq |] eqn:Hm; simpl.
    + destruct (metric_lookup (metrics c) mq) as [rm | m | m] eqn:Hl; simpl in E;
        try discriminate.
      apply metric_lookup_ok in Hl. rewrite Hl.
      destruct (IH _ _ _ E) as (Hs & Hser & Hc & Hg & Hx). simpl in *.
      split; [rewrite Hs; destruct (cs_stack st); reflexivity |].
      split; [exact Hser |]. split; [exact Hc |].
      unfold agg_prog in *. simpl.
      split; [rewrite Hg; unfold g_add; simpl; rewrite <- !app_assoc; reflexivity |].
      intros Hio. rewrite (Hx Hio). subst io. simpl. unfold x_add; simpl.
      rewrite <- !app_assoc. reflexivity.
    + exact (IH _ _ _ E).
Qed.

Lemma agg_case_spec (c : RRDConnector) (q : GroupQuery) (pcts : list Q) (io : bool)
    (st0 st' : CState) :
  agg_case c q pcts io st0 = Ok st' ->
  let sn := "serie" +:+ itoa (cs_count st0) in
  let L := resolved (metrics c) 0 (gq_Series q) in
  let stack := (fold_left push_stack (map (fun p => tmp_name sn p.1) L) (cs_stack st0) ++
                (if (gq_Type q =? OperGroupTypeAvg)%Z
                 then [itoa (List.length (gq_Series q)); "/"] else []))%list in
  let cd1 := ICDef (sn +:+ "-orig") (String.concat "," stack) in
  let cd2 := if negb (is_zero (gq_Scale q))
             then ICDef sn (scale_expr (sn +:+ "-orig") (gq_Scale q))
             else ICDef sn (sn +:+ "-orig") in
  cs_series st' = <[sn := gq_Name q]> (cs_series st0) /\
  (exists rest, g_prog (cs_graph st') =
                (g_prog (cs_graph st0) ++ agg_prog sn L ++ [cd1; cd2] ++ rest)%list) /\
  (io = false -> x_prog (cs_xport st') =
                 (x_prog (cs_xport st0) ++ agg_prog sn L ++ [cd1; cd2; IXportDef sn sn])%list).
Proof.
  unfold agg_case.
  destruct (agg_loop c io _ 0 (gq_Series q) _) as [st2 | m | m] eqn:E; simpl;
    intros H; try discriminate.
  injection H as <-.
  destruct (agg_loop_spec _ _ _ _ _ _ _ E) as (Hs & Hser & _ & Hg & Hx). simpl in *.
  rewrite Hser. split; [reflexivity |].
  assert (Hst : (if (gq_Type q =? OperGroupTypeAvg)%Z
                 then (cs_stack st2 ++ [itoa (List.length (gq_Series q)); "/"])%list
                 else cs_stack st2) =
                (fold_left push_stack
                   (map (fun p => tmp_name ("serie" +:+ itoa (cs_count st0)) p.1)
                      (resolved (metrics c) 0 (gq_Series q))) (cs_stack st0) ++
                 (if (gq_Type q =? OperGroupTypeAvg)%Z
                  then [itoa (List.length (gq_Series q)); "/"] else []))%list).
  { rewrite Hs. destruct (gq_Type q =? OperGroupTypeAvg)%Z;
      [reflexivity | rewrite app_nil_r; reflexivity]. }
  rewrite Hst. split.
  - eexists. unfold rrdSetGraph, g_add. simpl. rewrite Hg.
    rewrite <- !app_assoc. reflexivity.
  - intros Hio. subst io. simpl. unfold x_add. simpl. rewrite (Hx eq_refl).
    rewrite <- !app_assoc. reflexivity.
Qed.

Lemma rrdCompile_agg (c : RRDConnector) (q : GroupQuery) (pcts : list Q) (io : bool)
    (st : CState) :
  (gq_Type q = OperGroupTypeSum \/ gq_Type q = OperGroupTypeAvg) ->
  rrdCompile c q pcts io = Ok st ->
  let L := resolved (metrics c) 0 (gq_Series q) in
  let stack := (agg_stack "serie0" L ++
                (if (gq_Type q =? OperGroupTypeAvg)%Z
                 then [itoa (List.length (gq_Series q)); "/"] else []))%list in
  let cd1 := ICDef "serie0-orig" (String.concat "," stack) in
  let cd2 := if negb (is_zero (gq_Scale q))
             then ICDef "serie0" (scale_expr "serie0-orig" (gq_Scale q))
             else ICDef "serie0" "serie0-orig" in
  cs_series st = <["serie0" := gq_Name q]> ∅ /\
  (exists rest, g_prog (cs_graph st) = (agg_prog "serie0" L ++ [cd1; cd2] ++ rest)%list) /\
  (io = false -> x_prog (cs_xport st) = (agg_prog "serie0" L ++ [cd1; cd2; IXportDef "serie0" "serie0"])%list).
Proof.
  intros Hty H. unfold rrdCompile in H.
  assert (Hd : (gq_Type q =? OperGroupTypeNone)%Z = false /\
               ((gq_Type q =? OperGroupTypeAvg)%Z || (gq_Type q =? OperGroupTypeSum)%Z)%bool = true)
    by (destruct Hty as [-> | ->]; split; reflexivity).
  destruct Hd as [Hd1 Hd2]. rewrite Hd1, Hd2 in H.
  apply agg_case_spec in H. simpl in H.
  change ("serie" +:+ itoa 0) with "serie0" in H.
  destruct H as (Hser & Hg & Hx). split; [exact Hser |]. split.
  - destruct Hg as [rest Hg]. exists rest. rewrite Hg.
    destruct (negb (String.eqb (Daemon c) "")); reflexivity.
  - intros Hio. rewrite (Hx Hio). subst io. simpl.
    destruct (negb (String.eqb (Daemon c) "")); reflexivity.
Qed.

(** C1 (amended): for an Avg query with at least two configured series,
    the compiled program's final definition [serie0-orig] divides the stacked
    sum of the resolvable series by [len(query.Series)], the number of
    configured series (unresolvable ones included), in the graph program and,
    unless only the info is requested, in the export program. *)
Theorem avg_divides_by_configured_count (c : RRDConnector) (q : GroupQuery)
    (pcts : list Q) (io : bool) (st : CState) :
  gq_Type q = OperGroupTypeAvg ->
  2 <= List.length (gq_Series q) ->
  rrdCompile c (collapse_type q) pcts io = Ok st ->
  let final := ICDef "serie0-orig"
    (String.concat "," (agg_stack "serie0" (resolved (metrics c) 0 (gq_Series q)) ++
                        [itoa (List.length (gq_Series q)); "/"])%list) in
  final ∈ g_prog (cs_graph st) /\ (io = false -> final ∈ x_prog (cs_xport st)).
Proof.
  intros Hty Hlen H.
  assert (Hc : collapse_type q = q).
  { unfold collapse_type. rewrite Hty.
    destruct (Nat.eqb_spec (List.length (gq_Series q)) 1); [lia | reflexivity]. }
  rewrite Hc in H.
  destruct (rrdCompile_agg c q pcts io st (or_intror Hty) H) as (_ & [rest Hg] & Hx).
  rewrite Hty in Hg, Hx. simpl in Hg, Hx. split.
  - rewrite Hg. apply elem_of_app. right. apply elem_of_cons. left. reflexivity.
  - intros Hio. rewrite (Hx Hio). apply elem_of_app. right.
    apply elem_of_cons. left. reflexivity.
Qed.

Lemma avg_divides_by_configured_count_witness :
  exists st, rrdCompile conn0 (collapse_type q_avg_partial) [] false = Ok st /\
  ICDef "serie0-orig" "serie0-tmp0,2,/" ∈ x_prog (cs_xport st).
Proof.
  eexists. split; [reflexivity |].
  exact (proj2 (avg_divides_by_configured_count conn0 q_avg_partial [] false _
                  eq_refl ltac:(simpl; lia) eq_refl) eq_refl).
Defined.

(** C2 (amended): for a Sum or Avg query the type collapses to None
    exactly when the query has one configured series, whether or not it
    resolves; the query is then processed as the None-type query. With two or
    more configured series no collapse happens, even when at most one of them
    resolves: the result has the single label [serie0] carrying the group's
    name. *)
Theorem collapse_iff_one_configured_series (eng : Engine) (c : RRDConnector)
    (q : GroupQuery) (startT endT step : Z) (pcts : list Q) (io : bool)
    (es : EngineState) :
  (gq_Type q = OperGroupTypeSum \/ gq_Type q = OperGroupTypeAvg) ->
  (gq_Type (collapse_type q) = OperGroupTypeNone <-> List.length (gq_Series q) = 1) /\
  (List.length (gq_Series q) = 1 ->
   rrdGetData eng c q startT endT step pcts io es =
   rrdGetData eng c (with_type q OperGroupTypeNone) startT endT step pcts io es) /\
  (2 <= List.length (gq_Series q) -> forall st,
   rrdCompile c (collapse_type q) pcts io = Ok st ->
   cs_series st = <["serie0" := gq_Name q]> ∅).
Proof.
  intros Hty.
  assert (Hne : (gq_Type q =? OperGroupTypeNone)%Z = false)
    by (destruct Hty as [-> | ->]; reflexivity).
  split; [| split].
  - unfold collapse_type. rewrite Hne. simpl.
    destruct (Nat.eqb_spec (List.length (gq_Series q)) 1) as [E | E]; simpl.
    + split; auto.
    + split; [intros Hn; destruct Hty as [Ht | Ht]; rewrite Ht in Hn; discriminate |
              intros; contradiction].
  - intros Hl.
    assert (Hc : collapse_type q = with_type q OperGroupTypeNone).
    { unfold collapse_type. rewrite Hne, Hl. reflexivity. }
    assert (Hc' : collapse_type (with_type q OperGroupTypeNone) = with_type q OperGroupTypeNone)
      by reflexivity.
    rewrite <- rrdGetData_on_collapsed, Hc.
    rewrite <- (rrdGetData_on_collapsed eng c (with_type q OperGroupTypeNone)), Hc'.
    reflexivity.
  - intros Hl st H.
    assert (Hc : collapse_type q = q).
    { unfold collapse_type. rewrite Hne.
      destruct (Nat.eqb_spec (List.length (gq_Series q)) 1); [lia | reflexivity]. }
    rewrite Hc in H.
    exact (proj1 (rrdCompile_agg c q pcts io st Hty H)).
Qed.

Lemma collapse_iff_one_configured_series_witness :
  exists st, rrdCompile conn0 (collapse_type q_sum_partial) [] false = Ok st /\
  cs_series st = <["serie0" := "total"]> ∅.
Proof.
  eexists. split; [reflexivity |].
  exact (proj2 (proj2 (collapse_iff_one_configured_series eng0 conn0 q_sum_partial 0 2 1 [] false
                         es0 (or_introl eq_refl))) ltac:(simpl; lia) _ eq_refl).
Defined.

(* ------------------------------------------------------------------ *)
(** ** Names and expressions of the Sum/Avg program *)

Lemma append_cons (x : ascii) (a b : string) : String x a +:+ b = String x (a +:+ b).
Proof. reflexivity. Qed.

Lemma append_nil_l (b : string) : "" +:+ b = b.
Proof. reflexivity. Qed.

Lemma append_cancel_l (a b c : string) : a +:+ b = a +:+ c -> b = c.
Proof.
  induction a as [| x a IH]; [rewrite !append_nil_l; auto |].
  rewrite !append_cons. intros H. injection H. exact IH.
Qed.

Lemma uint_to_string_app_inj (u u' : Decimal.uint) (t t' : string) :
  nodigit t -> nodigit t' ->
  uint_to_string u +:+ t = uint_to_string u' +:+ t' -> u = u' /\ t = t'.
Proof.
  revert u'. induction u; intros u' Ht Ht' H; destruct u'; simpl in H;
    rewrite ?append_cons, ?append_nil_l in H;
    try (split; [reflexivity | exact H]);
    try (subst t'; simpl in Ht'; discriminate);
    try (subst t; simpl in Ht; discriminate);
    try discriminate;
    try (injection H as H; destruct (IHu _ Ht Ht' H) as [-> ->]; split; reflexivity).
Qed.

Lemma itoa_app_inj (i j : nat) (t t' : string) :
  nodigit t -> nodigit t' -> itoa i +:+ t = itoa j +:+ t' -> i = j /\ t = t'.
Proof.
  unfold itoa. intros Ht Ht' H.
  destruct (uint_to_string_app_inj _ _ _ _ Ht Ht' H) as [Hu ->]. split; [| reflexivity].
  rewrite <- (DecimalNat.Unsigned.of_to i), <- (DecimalNat.Unsigned.of_to j), Hu.
  reflexivity.
Qed.

Lemma tmp_name_inj (i j : nat) : tmp_name "serie0" i = tmp_name "serie0" j -> i = j.
Proof.
  unfold tmp_name. intros H. do 2 apply append_cancel_l in H.
  rewrite <- (append_empty_r (itoa i)), <- (append_empty_r (itoa j)) in H.
  exact (proj1 (itoa_app_inj i j "" "" I I H)).
Qed.

Lemma tmp_name_ori_inj (i j : nat) :
  tmp_name "serie0" i +:+ "-ori" = tmp_name "serie0" j +:+ "-ori" -> i = j.
Proof.
  unfold tmp_name. rewrite !append_assoc_str. intros H. do 2 apply append_cancel_l in H.
  exact (proj1 (itoa_app_inj i j "-ori" "-ori" eq_refl eq_refl H)).
Qed.

Lemma tmp_name_ne_ori (i j : nat) : tmp_name "serie0" i <> tmp_name "serie0" j +:+ "-ori".
Proof.
  unfold tmp_name. rewrite !append_assoc_str. intros H. do 2 apply append_cancel_l in H.
  rewrite <- (append_empty_r (itoa i)) in H.
  destruct (itoa_app_inj i j "" "-ori" I eq_refl H) as [_ E]. discriminate.
Qed.

Lemma tmp_name_s (i : nat) : exists r, tmp_name "serie0" i = String "s"%char r.
Proof. eexists. reflexivity. Qed.

Lemma tmp_name_ori_s (i : nat) : exists r, tmp_name "serie0" i +:+ "-ori" = String "s"%char r.
Proof. eexists. reflexivity. Qed.

Lemma count_comma_uint (u : Decimal.uint) : count_char ","%char (uint_to_string u) = 0.
Proof. induction u; simpl; auto. Qed.

Lemma tmp_name_comma_free (i : nat) : count_char ","%char (tmp_name "serie0" i) = 0.
Proof. unfold tmp_name, itoa. rewrite !count_char_app, count_comma_uint. reflexivity. Qed.

Lemma tmp_name_ori_comma_free (i : nat) : count_char ","%char (tmp_name "serie0" i +:+ "-ori") = 0.
Proof. rewrite count_char_app, tmp_name_comma_free. reflexivity. Qed.

Lemma split_commas_aux_free (a s cur : string) :
  count_char ","%char a = 0 -> split_commas_aux (a +:+ s) cur = split_commas_aux s (cur +:+ a).
Proof.
  revert cur. induction a as [| x a IH]; intros cur Ha.
  - rewrite append_nil_l, append_empty_r. reflexivity.
  - simpl in Ha. destruct (Ascii.eqb x ","%char) eqn:Ex; [discriminate |].
    rewrite append_cons. simpl. rewrite Ex, IH by exact Ha.
    rewrite append_assoc_str. reflexivity.
Qed.

Lemma split_commas_concat (toks : list string) (t : string) :
  Forall (fun s => count_char ","%char s = 0) (t :: toks) ->
  split_commas (String.concat "," (t :: toks)) = t :: toks.
Proof.
  unfold split_commas. revert t. induction toks as [| t' rest IH]; intros t HF;
    inversion HF as [| ? ? Ht HF']; subst.
  - simpl. rewrite <- (append_empty_r t) at 1.
    rewrite split_commas_aux_free by exact Ht. reflexivity.
  - change (String.concat "," (t :: t' :: rest))
      with (t +:+ String ","%char (String.concat "," (t' :: rest))).
    rewrite split_commas_aux_free by exact Ht.
    change (split_commas_aux (String ","%char (String.concat "," (t' :: rest))) ("" +:+ t))
      with (("" +:+ t) :: split_commas_aux (String.concat "," (t' :: rest)) "").
    rewrite IH by exact HF'. reflexivity.
Qed.

Lemma rpn_step_s (env : gmap string PlotValue) (r : string) (stk : list PlotValue) :
  rpn_step env (String "s"%char r) stk =
  match env !! String "s"%char r with Some v => Some (v :: stk) | None => None end.
Proof. reflexivity. Qed.

Lemma rpn_run_app (env : gmap string PlotValue) (l1 l2 : list string) (stk : list PlotValue) :
  rpn_run env (l1 ++ l2) stk =
  match rpn_run env l1 stk with Some s => rpn_run env l2 s | None => None end.
Proof.
  revert stk. induction l1 as [| t l1 IH]; intros stk; simpl; [reflexivity |].
  destruct (rpn_step env t stk); [apply IH | reflexivity].
Qed.

(** The temporary definition of line 280 yields the sample, or zero for
    the unknown value. *)
Lemma tmp_expr_eval (env : gmap string PlotValue) (i : nat) (v : PlotValue) :
  env !! (tmp_name "serie0" i +:+ "-ori") = Some v ->
  rpn_eval env (tmp_name "serie0" i +:+ "-ori,UN,0," +:+ tmp_name "serie0" i +:+ "-ori,IF")
  = Some (PNum (zero_subst v)).
Proof.
  intros Hv.
  assert (E : tmp_name "serie0" i +:+ "-ori,UN,0," +:+ tmp_name "serie0" i +:+ "-ori,IF" =
              String.concat "," [tmp_name "serie0" i +:+ "-ori"; "UN"; "0";
                                 tmp_name "serie0" i +:+ "-ori"; "IF"]).
  { cbn [String.concat]. rewrite !append_assoc_str. reflexivity. }
  rewrite E. unfold rpn_eval. rewrite split_commas_concat.
  2: { repeat constructor; apply tmp_name_ori_comma_free. }
  destruct (tmp_name_ori_s i) as [r Hr]. rewrite Hr in Hv |- *.
  cbn [rpn_run]. rewrite rpn_step_s, Hv. cbn [rpn_run].
  change (rpn_step env "UN" [v]) with (Some [match v with PNaN => PNum 1 | PNum _ => PNum 0 end]).
  cbn [rpn_run].
  change (rpn_step env "0" [match v with PNaN => PNum 1 | PNum _ => PNum 0 end])
    with (Some [PNum 0; match v with PNaN => PNum 1 | PNum _ => PNum 0 end]).
  cbn [rpn_run]. rewrite rpn_step_s, Hv. cbn [rpn_run].
  destruct v; reflexivity.
Qed.

Lemma push_stack_fold (ns stk : list string) :
  stk <> [] -> fold_left push_stack ns stk = (stk ++ List.concat (map (fun n => [n; "+"]) ns))%list.
Proof.
  revert stk. induction ns as [| n ns IH]; intros stk Hs; simpl.
  - rewrite app_nil_r. reflexivity.
  - rewrite IH.
    + unfold push_stack. destruct stk; [contradiction |]. rewrite <- app_assoc. reflexivity.
    + unfold push_stack. destruct stk; [contradiction | discriminate].
Qed.

Lemma rpn_sum (env : gmap string PlotValue) (val : nat * rrdMetric -> Q)
    (L : list (nat * rrdMetric)) (a : Q) :
  (forall p, p ∈ L -> env !! tmp_name "serie0" p.1 = Some (PNum (val p))) ->
  rpn_run env (List.concat (map (fun n => [n; "+"]) (map (fun p => tmp_name "serie0" p.1) L)))
    [PNum a] = Some [PNum (fold_left Qplus (map val L) a)].
Proof.
  revert a. induction L as [| p L IH]; intros a HL; [reflexivity |].
  cbn [map List.concat app rpn_run].
  destruct (tmp_name_s p.1) as [r Hr]. rewrite Hr, rpn_step_s.
  rewrite <- Hr, (HL p ltac:(apply elem_of_cons; left; reflexivity)) .
  cbn [rpn_run]. change (rpn_step env "+" [PNum (val p); PNum a]) with (Some [PNum (a + val p)]).
  cbn [fold_left]. apply IH. intros p' Hp'. apply HL. apply elem_of_cons. right. exact Hp'.
Qed.

Lemma fold_left_Qplus (l : list Q) (a : Q) : fold_left Qplus l a == a + qsum l.
Proof.
  revert a. induction l as [| x l IH]; intros a; simpl; unfold qsum in *; simpl.
  - ring.
  - rewrite IH. ring.
Qed.

Lemma push_tokens_free (L : list (nat * rrdMetric)) :
  Forall (fun s => count_char ","%char s = 0)
    (List.concat (map (fun n => [n; "+"]) (map (fun p => tmp_name "serie0" p.1) L))).
Proof.
  induction L as [| p L IH]; simpl; [constructor |].
  constructor; [apply tmp_name_comma_free | constructor; [reflexivity | exact IH]].
Qed.

(** The accumulated definition of lines 285-299 evaluates to the sum. *)
Lemma agg_stack_eval (env : gmap string PlotValue) (val : nat * rrdMetric -> Q)
    (L : list (nat * rrdMetric)) :
  L <> [] ->
  (forall p, p ∈ L -> env !! tmp_name "serie0" p.1 = Some (PNum (val p))) ->
  exists s, rpn_eval env (String.concat "," (agg_stack "serie0" L)) = Some (PNum s) /\
            s == qsum (map val L).
Proof.
  destruct L as [| p L]; [contradiction |]. intros _ HL.
  unfold agg_stack. cbn [map fold_left]. change (push_stack [] (tmp_name "serie0" p.1))
    with [tmp_name "serie0" p.1].
  rewrite push_stack_fold by discriminate. cbn [app].
  unfold rpn_eval. rewrite split_commas_concat
    by (constructor; [apply tmp_name_comma_free | apply push_tokens_free]).
  cbn [rpn_run]. destruct (tmp_name_s p.1) as [r Hr]. rewrite Hr, rpn_step_s.
  rewrite <- Hr, (HL p ltac:(apply elem_of_cons; left; reflexivity)).
  rewrite (rpn_sum env val L (val p)).
  - eexists. split; [reflexivity |]. rewrite fold_left_Qplus. unfold qsum. simpl. reflexivity.
  - intros p' Hp'. apply HL. apply elem_of_cons. right. exact Hp'.
Qed.

Lemma run_row_app (f : string -> string -> PlotValue) (p1 p2 : list Instr)
    (env : gmap string PlotValue) :
  run_row f (p1 ++ p2) env =
  match run_row f p1 env with Some e => run_row f p2 e | None => None end.
Proof.
  revert env. induction p1 as [| i p1 IH]; intros env; simpl; [reflexivity |].
  destruct i; try apply IH.
  destruct (rpn_eval env expr); [apply IH | reflexivity].
Qed.

Lemma resolved_ge (ms : catalog) (series : list SerieQuery) :
  forall idx p, In p (resolved ms idx series) -> idx <= p.1.
Proof.
  induction series as [| s rest IH]; intros idx p Hp; simpl in Hp; [contradiction |].
  destruct (sq_Metric s ≫= lookup_opt ms) as [rm |].
  - destruct Hp as [<- | Hp]; [simpl; lia |]. specialize (IH _ _ Hp). lia.
  - specialize (IH _ _ Hp). lia.
Qed.

Lemma resolved_nodup (ms : catalog) (series : list SerieQuery) :
  forall idx, List.NoDup (map fst (resolved ms idx series)).
Proof.
  induction series as [| s rest IH]; intros idx; simpl; [constructor |].
  destruct (sq_Metric s ≫= lookup_opt ms) as [rm |]; [| apply IH].
  simpl. constructor; [| apply IH].
  intros Hin. apply in_map_iff in Hin as [p [Hp Hin]].
  apply resolved_ge in Hin. lia.
Qed.

(** Running the temporary definitions of the resolved series (lines 265-283). *)
Lemma run_agg (f : string -> string -> PlotValue) (L : list (nat * rrdMetric)) :
  List.NoDup (map fst L) ->
  forall env, exists env',
  run_row f (agg_prog "serie0" L) env = Some env' /\
  (forall p, In p L ->
     env' !! tmp_name "serie0" p.1 = Some (PNum (zero_subst (f (FilePath p.2) (Dataset p.2))))) /\
  (forall k, (forall p, In p L -> k <> tmp_name "serie0" p.1 /\ k <> tmp_name "serie0" p.1 +:+ "-ori") ->
     env' !! k = env !! k).
Proof.
  induction L as [| [i rm] L IH]; intros Hnd env.
  - exists env. split; [reflexivity |]. split; [intros p [] | auto].
  - inversion Hnd as [| ? ? Hi Hnd']; subst.
    set (env1 := <[tmp_name "serie0" i +:+ "-ori" := f (FilePath rm) (Dataset rm)]> env).
    set (env2 := <[tmp_name "serie0" i := PNum (zero_subst (f (FilePath rm) (Dataset rm)))]> env1).
    destruct (IH Hnd' env2) as (env' & Hrun & Hin & Hfr).
    exists env'.
    assert (Hrun' : run_row f (agg_prog "serie0" ((i, rm) :: L)) env = Some env').
    { unfold agg_prog. cbn [map List.concat]. cbn [app run_row].
      fold env1.
      rewrite (tmp_expr_eval env1 i (f (FilePath rm) (Dataset rm)))
        by (unfold env1; apply lookup_insert_eq).
      exact Hrun. }
    split; [exact Hrun' |]. split.
    + intros p [<- | Hp]; [| exact (Hin p Hp)].
      simpl. rewrite Hfr.
      * unfold env2. apply lookup_insert_eq.
      * intros q Hq. split.
        -- intros E. apply tmp_name_inj in E. apply Hi. rewrite E. apply in_map. exact Hq.
        -- apply tmp_name_ne_ori.
    + intros k Hk. rewrite Hfr by (intros q Hq; apply Hk; right; exact Hq).
      destruct (Hk (i, rm) (or_introl eq_refl)) as [Hk1 Hk2]. simpl in Hk1, Hk2.
      unfold env2, env1. rewrite lookup_insert_ne by congruence.
      rewrite lookup_insert_ne by congruence. reflexivity.
Qed.

(** The export program of a Sum query with group scale zero. *)
Lemma run_sum_row (f : string -> string -> PlotValue) (L : list (nat * rrdMetric)) :
  L <> [] -> List.NoDup (map fst L) ->
  exists env s,
  run_row f (agg_prog "serie0" L ++
             [ICDef "serie0-orig" (String.concat "," (agg_stack "serie0" L));
              ICDef "serie0" "serie0-orig"; IXportDef "serie0" "serie0"]) ∅ = Some env /\
  env !! "serie0" = Some (PNum s) /\
  s == qsum (map (fun p => zero_subst (f (FilePath p.2) (Dataset p.2))) L).
Proof.
  intros Hne Hnd.
  destruct (run_agg f L Hnd ∅) as (env' & Hrun & Hin & _).
  destruct (agg_stack_eval env' (fun p => zero_subst (f (FilePath p.2) (Dataset p.2))) L Hne)
    as (s & Hs & Hq).
  { intros p Hp. apply Hin. apply list_elem_of_In. exact Hp. }
  rewrite run_row_app, Hrun. cbn [run_row]. rewrite Hs.
  set (env'' := <["serie0-orig" := PNum s]> env').
  assert (E2 : rpn_eval env'' "serie0-orig" = Some (PNum s)).
  { unfold rpn_eval. change (split_commas "serie0-orig") with ["serie0-orig"].
    cbn [rpn_run]. rewrite rpn_step_s. unfold env''. rewrite lookup_insert_eq. reflexivity. }
  rewrite E2. do 2 eexists. split; [reflexivity |]. split; [apply lookup_insert_eq | exact Hq].
Qed.

Lemma xport_columns_app (p1 p2 : list Instr) :
  xport_columns (p1 ++ p2) = (xport_columns p1 ++ xport_columns p2)%list.
Proof. induction p1 as [| i p1 IH]; [reflexivity |]. destruct i; simpl; rewrite ?IH; reflexivity. Qed.

Lemma xport_columns_agg (sn : string) (L : list (nat * rrdMetric)) :
  xport_columns (agg_prog sn L) = [].
Proof. induction L as [| [i rm] L IH]; [reflexivity |]. exact IH. Qed.

Lemma table_single (fetch : nat -> string -> string -> PlotValue) (prog : list Instr)
    (v l : string) (rs : list nat) :
  forall vs, table fetch prog [(v, l)] rs = Some vs ->
  List.length vs = List.length rs /\
  forall k r, rs !! k = Some r ->
  exists env x, run_row (fetch r) prog ∅ = Some env /\ env !! v = Some x /\ vs !! k = Some x.
Proof.
  induction rs as [| r rs IH]; intros vs H; simpl in H.
  - injection H as <-. split; [reflexivity | intros k r' Hk; discriminate].
  - destruct (run_row (fetch r) prog ∅) as [env |] eqn:Hr; [| discriminate].
    simpl in H. destruct (env !! v) as [x |] eqn:Hx; [| discriminate].
    destruct (table fetch prog [(v, l)] rs) as [t |] eqn:Ht; [| discriminate].
    injection H as <-. destruct (IH t eq_refl) as [Hl Hk].
    split; [simpl; lia |].
    intros [| k] r' E; simpl in E.
    + injection E as <-. exists env, x. auto.
    + exact (Hk k r' E).
Qed.

Lemma value_rows_spec (d : XportData) (idx : nat) (rs : list nat) :
  forall ps, value_rows d idx rs = Ok ps ->
  forall k r, rs !! k = Some r ->
  exists v, ps !! k = Some v /\ xd_values d !! (List.length (xd_Legends d) * r + idx)%nat = Some v.
Proof.
  induction rs as [| r rs IH]; intros ps H k r' Hk; [discriminate |].
  simpl in H. unfold ValueAt in H.
  destruct (xd_values d !! (List.length (xd_Legends d) * r + idx)%nat) as [v |] eqn:Hv;
    simpl in H; [| discriminate].
  destruct (value_rows d idx rs) as [vs | m | m] eqn:Hvs; simpl in H; try discriminate.
  injection H as <-. destruct k as [| k]; simpl in Hk.
  - injection Hk as <-. exists v. auto.
  - exact (IH vs eq_refl k r' Hk).
Qed.

Lemma value_rows_length (d : XportData) (idx : nat) (rs : list nat) :
  forall ps, value_rows d idx rs = Ok ps -> List.length ps = List.length rs.
Proof.
  induction rs as [| r rs IH]; intros ps H; simpl in H.
  - injection H as <-. reflexivity.
  - unfold ValueAt in H.
    destruct (xd_values d !! _) as [v |]; simpl in H; [| discriminate].
    destruct (value_rows d idx rs) as [vs | m | m] eqn:Hvs; simpl in H; try discriminate.
    injection H as <-. simpl. rewrite (IH vs eq_refl). reflexivity.
Qed.

Lemma fill_plots_single (d : XportData) (sn : string) (series : gmap string string)
    (res : gmap string PlotResult) :
  fill_plots d 0 [sn] series ∅ = Ok res ->
  exists ps, value_rows d 0 (seq 0 (xd_RowCnt d)) = Ok ps /\
  res = <[default "" (series !! sn) := {| Plots := ps; Info := ∅ |}]> ∅.
Proof.
  simpl. destruct (value_rows d 0 (seq 0 (xd_RowCnt d))) as [ps | m | m]; simpl;
    intros H; try discriminate.
  injection H as <-. exists ps. auto.
Qed.

Lemma rrdParseInfo_plots (pf : string -> option PlotValue) (print : list string) :
  forall data data', rrdParseInfo pf print data = Ok data' ->
  forall l pr, data !! l = Some pr ->
  exists pr', data' !! l = Some pr' /\ Plots pr' = Plots pr.
Proof.
  induction print as [| v rest IH]; intros data data' H l pr Hl; simpl in H.
  - injection H as <-. exists pr. auto.
  - unfold parse_info_line in H.
    destruct (SplitN v ","%char 3) as [| c0 [| c1 [| c2 cs]]]; simpl in H; try discriminate.
    destruct (String.eqb_spec c0 l) as [<- | Hne].
    + destruct (IH _ _ H c0 _ (lookup_insert_eq _ _ _)) as (pr' & H1 & H2).
      exists pr'. split; [exact H1 |]. rewrite H2. simpl. rewrite Hl. reflexivity.
    + apply (IH _ _ H). rewrite lookup_insert_ne by exact Hne. exact Hl.
Qed.

Lemma agg_prog_tmp_def (sn : string) (L : list (nat * rrdMetric)) (i : nat) (rm : rrdMetric) :
  (i, rm) ∈ L ->
  ICDef (tmp_name sn i) (tmp_name sn i +:+ "-ori,UN,0," +:+ tmp_name sn i +:+ "-ori,IF")
    ∈ agg_prog sn L.
Proof.
  induction L as [| [j rm'] L IH]; intros H; [apply elem_of_nil in H; contradiction |].
  unfold agg_prog. cbn [map List.concat]. apply elem_of_app.
  apply elem_of_cons in H as [E | H].
  - injection E as -> ->. left. apply elem_of_cons. right. apply elem_of_cons. left. reflexivity.
  - right. exact (IH H).
Qed.

(** A run of the Sum export program, whatever the group scale expression. *)
Lemma run_sum_row_any (f : string -> string -> PlotValue) (L : list (nat * rrdMetric))
    (e2 : string) (env : gmap string PlotValue) :
  L <> [] -> List.NoDup (map fst L) ->
  run_row f (agg_prog "serie0" L ++
             [ICDef "serie0-orig" (String.concat "," (agg_stack "serie0" L));
              ICDef "serie0" e2; IXportDef "serie0" "serie0"]) ∅ = Some env ->
  exists s, env !! "serie0-orig" = Some (PNum s) /\
  s == qsum (map (fun p => zero_subst (f (FilePath p.2) (Dataset p.2))) L) /\
  (e2 = "serie0-orig" -> env !! "serie0" = Some (PNum s)).
Proof.
  intros Hne Hnd H.
  destruct (run_agg f L Hnd ∅) as (env' & Hrun & Hin & _).
  destruct (agg_stack_eval env' (fun p => zero_subst (f (FilePath p.2) (Dataset p.2))) L Hne)
    as (s & Hs & Hq).
  { intros p Hp. apply Hin. apply list_elem_of_In. exact Hp. }
  rewrite run_row_app, Hrun in H. cbn [run_row] in H. rewrite Hs in H.
  set (env'' := <["serie0-orig" := PNum s]> env') in H.
  destruct (rpn_eval env'' e2) as [y |] eqn:Ey; [| discriminate].
  injection H as <-. exists s. split; [| split; [exact Hq |]].
  - rewrite lookup_insert_ne by discriminate. apply lookup_insert_eq.
  - intros ->. rewrite lookup_insert_eq. f_equal.
    assert (E2 : rpn_eval env'' "serie0-orig" = Some (PNum s)).
    { unfold rpn_eval. change (split_commas "serie0-orig") with ["serie0-orig"].
      cbn [rpn_run]. rewrite rpn_step_s. unfold env''. rewrite lookup_insert_eq. reflexivity. }
    congruence.
Qed.

(** C7: in Sum and Avg mode (at least two configured series, so no
    collapse), every resolvable series gets a temporary definition
    [serie0-tmp<i>] that replaces the engine's unknown value by zero, and the
    accumulation [serie0-orig] is built from these temporaries after all of
    them, in the graph program and, unless only the info is requested, in the
    export program. In Sum mode, whatever the group scale, whenever
    [GetPlots] succeeds on the reference engine, the group's label holds one
    sample per exported row, the sample of row [r] is the engine's value of
    the exported [serie0] at that row, the merged value [serie0-orig] at that
    row is the number equal to the sum over the resolvable series of their
    row-[r] values with zero for an unknown value, and without a group scale
    the sample is that number. *)
Theorem sum_substitutes_zero_for_unknown
    (fetch : nat -> string -> string -> PlotValue) (graph : Grapher -> Z -> Z -> Res (list string))
    (c : RRDConnector) (q : GroupQuery) (startT endT step : Z) (pcts : list Q) (io : bool)
    (st : CState) (es : EngineState) (q' : GroupQuery) (res : gmap string PlotResult)
    (es' : EngineState) :
  (gq_Type q = OperGroupTypeSum \/ gq_Type q = OperGroupTypeAvg) ->
  2 <= List.length (gq_Series q) ->
  rrdCompile c (collapse_type q) pcts io = Ok st ->
  let L := resolved (metrics c) 0 (gq_Series q) in
  let acc := ICDef "serie0-orig"
    (String.concat "," (agg_stack "serie0" L ++
       (if (gq_Type q =? OperGroupTypeAvg)%Z then [itoa (List.length (gq_Series q)); "/"]
        else []))%list) in
  (forall i rm, (i, rm) ∈ L ->
     ICDef (tmp_name "serie0" i)
           (tmp_name "serie0" i +:+ "-ori,UN,0," +:+ tmp_name "serie0" i +:+ "-ori,IF")
       ∈ agg_prog "serie0" L) /\
  (exists rest, g_prog (cs_graph st) = (agg_prog "serie0" L ++ acc :: rest)%list) /\
  (io = false -> exists rest, x_prog (cs_xport st) = (agg_prog "serie0" L ++ acc :: rest)%list) /\
  (gq_Type q = OperGroupTypeSum -> io = false ->
   GetPlots (ref_engine fetch graph) c q startT endT step pcts es = (q', Ok res, es') ->
   exists pr, res !! gq_Name q = Some pr /\
   List.length (Plots pr) = Z.to_nat ((endT - startT) / step) /\
   forall r, r < Z.to_nat ((endT - startT) / step) ->
   exists env s,
     run_row (fetch r) (x_prog (cs_xport st)) ∅ = Some env /\
     env !! "serie0-orig" = Some (PNum s) /\
     s == qsum (map (fun p => zero_subst (fetch r (FilePath p.2) (Dataset p.2))) L) /\
     Plots pr !! r = env !! "serie0" /\
     (gq_Scale q == 0 -> Plots pr !! r = Some (PNum s))).
Proof.
  intros Hty Hlen Hcomp L acc.
  assert (Hc : collapse_type q = q).
  { unfold collapse_type.
    assert (Hn : (gq_Type q =? OperGroupTypeNone)%Z = false)
      by (destruct Hty as [E | E]; rewrite E; reflexivity).
    rewrite Hn. destruct (Nat.eqb_spec (List.length (gq_Series q)) 1); [lia | reflexivity]. }
  rewrite Hc in Hcomp.
  destruct (rrdCompile_agg c q pcts io st Hty Hcomp) as (Hser & [grest Hg] & Hx).
  fold L in Hg, Hx.
  set (e2 := if negb (is_zero (gq_Scale q)) then scale_expr "serie0-orig" (gq_Scale q)
             else "serie0-orig").
  assert (Hcd2 : (if negb (is_zero (gq_Scale q))
                  then ICDef "serie0" (scale_expr "serie0-orig" (gq_Scale q))
                  else ICDef "serie0" "serie0-orig") = ICDef "serie0" e2)
    by (unfold e2; destruct (negb (is_zero (gq_Scale q))); reflexivity).
  rewrite Hcd2 in Hg, Hx.
  split; [| split; [| split]].
  - intros i rm Hi. exact (agg_prog_tmp_def "serie0" L i rm Hi).
  - exists (ICDef "serie0" e2 :: grest). rewrite Hg. reflexivity.
  - intros Hio. exists [ICDef "serie0" e2; IXportDef "serie0" "serie0"].
    rewrite (Hx Hio). reflexivity.
  - intros HSum Hio H. subst io. specialize (Hx eq_refl).
    assert (Hx' : x_prog (cs_xport st) = (agg_prog "serie0" L ++
               [ICDef "serie0-orig" (String.concat "," (agg_stack "serie0" L));
                ICDef "serie0" e2; IXportDef "serie0" "serie0"])%list).
    { rewrite Hx, HSum. cbv beta iota. change ((OperGroupTypeSum =? OperGroupTypeAvg)%Z) with false.
      cbv beta iota. rewrite app_nil_r. reflexivity. }
    clear Hx. unfold GetPlots, rrdGetData in H.
    assert (Hn0 : Nat.eqb (List.length (gq_Series q)) 0 = false) by (apply Nat.eqb_neq; lia).
    rewrite Hn0, Hc, Hcomp in H.
    unfold Xport in H. cbn [eng_xport ref_engine] in H.
    unfold ref_xport in H. rewrite Hx' in H.
    rewrite xport_columns_app, xport_columns_agg in H. cbn [xport_columns app] in H.
    destruct (table fetch _ _ _) as [vs |] eqn:Ht; [| congruence].
    cbn [map snd fst] in H.
    destruct (fill_plots _ 0 _ _ _) as [res0 | m | m] eqn:Hf; try congruence.
    cbn [eng_graph ref_engine] in H.
    destruct (graph (cs_graph st) startT endT) as [print | m | m]; try congruence.
    destruct (rrdParseInfo ParseFloat print res0) as [res1 | m | m] eqn:Hp; try congruence.
    injection H as _ <- _.
    cbn [xr_data xd_Legends] in Hf.
    apply fill_plots_single in Hf as (ps & Hps & ->). cbn [xd_RowCnt] in Hps.
    rewrite Hser, lookup_insert_eq in Hp. cbn [default] in Hp.
    destruct (rrdParseInfo_plots _ _ _ _ Hp (gq_Name q) _ (lookup_insert_eq _ _ _))
      as (pr & Hpr & HP).
    exists pr. split; [exact Hpr |]. cbn [Plots] in HP. rewrite HP.
    destruct (table_single _ _ _ _ _ _ Ht) as [Hlv Hk].
    split; [rewrite (value_rows_length _ _ _ _ Hps), length_seq; reflexivity |].
    intros r Hr.
    assert (Hsr : seq 0 (Z.to_nat ((endT - startT) / step)) !! r = Some r)
      by (apply lookup_seq; split; lia).
    destruct (value_rows_spec _ _ _ _ Hps r r Hsr) as (v & Hv & Hd).
    cbn [xd_values xd_Legends List.length] in Hd. rewrite Nat.mul_1_l, Nat.add_0_r in Hd.
    destruct (Hk r r Hsr) as (env & x & Hrun & Henv & Hvs).
    rewrite Hd in Hvs. injection Hvs as <-.
    rewrite Hx'.
    destruct L as [| p0 L0] eqn:HL.
    + exfalso. rewrite run_row_app in Hrun. vm_compute in Hrun. discriminate.
    + destruct (run_sum_row_any (fetch r) (p0 :: L0) e2 env ltac:(discriminate)
                  ltac:(rewrite <- HL; apply resolved_nodup) Hrun) as (s & Hs & Hq & Hz).
      exists env, s. split; [exact Hrun |]. split; [exact Hs |]. split; [exact Hq |].
      split; [rewrite Hv; symmetry; exact Henv |].
      intros Hsc. rewrite Hv, <- Henv. apply Hz. unfold e2.
      assert (Hz0 : is_zero (gq_Scale q) = true) by (apply Qeq_bool_iff; exact Hsc).
      rewrite Hz0. reflexivity.
Qed.

Lemma sum_substitutes_zero_for_unknown_witness :
  exists st res es', rrdCompile conn0 (collapse_type q_sum2) [] false = Ok st /\
  GetPlots eng0 conn0 q_sum2 0 2 1 [] es0 = (q_sum2, Ok res, es') /\
  let L := resolved (metrics conn0) 0 (gq_Series q_sum2) in
  let acc := ICDef "serie0-orig"
    (String.concat "," (agg_stack "serie0" L ++
       (if (gq_Type q_sum2 =? OperGroupTypeAvg)%Z then [itoa (List.length (gq_Series q_sum2)); "/"]
        else []))%list) in
  (forall i rm, (i, rm) ∈ L ->
     ICDef (tmp_name "serie0" i)
           (tmp_name "serie0" i +:+ "-ori,UN,0," +:+ tmp_name "serie0" i +:+ "-ori,IF")
       ∈ agg_prog "serie0" L) /\
  (exists rest, g_prog (cs_graph st) = (agg_prog "serie0" L ++ acc :: rest)%list) /\
  (false = false -> exists rest, x_prog (cs_xport st) = (agg_prog "serie0" L ++ acc :: rest)%list) /\
  (gq_Type q_sum2 = OperGroupTypeSum -> false = false ->
   GetPlots eng0 conn0 q_sum2 0 2 1 [] es0 = (q_sum2, Ok res, es') ->
   exists pr, res !! gq_Name q_sum2 = Some pr /\
   List.length (Plots pr) = Z.to_nat ((2 - 0) / 1) /\
   forall r, r < Z.to_nat ((2 - 0) / 1) ->
   exists env s,
     run_row (fetch0 r) (x_prog (cs_xport st)) ∅ = Some env /\
     env !! "serie0-orig" = Some (PNum s) /\
     s == qsum (map (fun p => zero_subst (fetch0 r (FilePath p.2) (Dataset p.2))) L) /\
     Plots pr !! r = env !! "serie0" /\
     (gq_Scale q_sum2 == 0 -> Plots pr !! r = Some (PNum s))).
Proof.
  do 3 eexists. split; [reflexivity |]. split; [reflexivity |].
  exact (sum_substitutes_zero_for_unknown fetch0 graph_ok conn0 q_sum2 0 2 1 [] false _ es0
           q_sum2 _ _ (or_introl eq_refl) ltac:(simpl; lia) eq_refl).
Defined.

(* ================================================================== *)
(** * Further properties of the connector *)

(* ------------------------------------------------------------------ *)
(** ** The factory *)

(** The factory succeeds exactly when [path], [pattern] and [daemon] are all
    strings; the connector then carries them and an empty catalog. *)
Theorem rrd_factory_ok_iff (config : gmap string CfgValue) (c : RRDConnector) :
  rrd_factory config = Ok c <->
  exists p pt d, config !! "path" = Some (CStr p) /\ config !! "pattern" = Some (CStr pt) /\
    config !! "daemon" = Some (CStr d) /\
    c = {| Path := p; Pattern := pt; Daemon := d; metrics := ∅ |}.
Proof.
  unfold rrd_factory, cfg_string. split.
  - destruct (config !! "path") as [[p | | ] |]; 
      rewrite ?bool_decide_eq_true_2 by reflexivity;
      rewrite ?bool_decide_eq_false_2 by discriminate; try discriminate;
    destruct (config !! "pattern") as [[pt | | ] |];
      rewrite ?bool_decide_eq_true_2 by reflexivity;
      rewrite ?bool_decide_eq_false_2 by discriminate; try discriminate;
    destruct (config !! "daemon") as [[d | | ] |]; try discriminate.
    intros H. injection H as <-. eauto 7.
  - intros (p & pt & d & Hp & Hpt & Hd & ->). rewrite Hp, Hpt, Hd.
    rewrite !bool_decide_eq_false_2 by discriminate. reflexivity.
Qed.

(* ------------------------------------------------------------------ *)
(** ** Refresh *)

Lemma check_keywords_spec (names : list string) :
  forall src met, check_keywords names src met = None <->
  (forall k, k ∈ names -> k = "" \/ k = "source" \/ k = "metric") /\
  (src = true \/ "source" ∈ names) /\ (met = true \/ "metric" ∈ names).
Proof.
  induction names as [| key rest IH]; intros src met; simpl.
  - split.
    + destruct src, met; simpl; intros H; try discriminate.
      split; [intros k Hk; apply elem_of_nil in Hk; contradiction | auto].
    + intros (_ & [-> | Hs] & [-> | Hm]); try (apply elem_of_nil in Hs; contradiction);
        try (apply elem_of_nil in Hm; contradiction); reflexivity.
  - destruct (String.eqb_spec key "") as [-> | H0];
      [| destruct (String.eqb_spec key "source") as [-> | H1];
         [| destruct (String.eqb_spec key "metric") as [-> | H2]]];
      rewrite ?IH; setoid_rewrite elem_of_cons.
    + split; intros (Ha & Hb & Hc); (split; [| split]);
        [intros k [-> | Hk]; auto | tauto | tauto | intros k Hk; auto | | ].
      * destruct Hb as [| [E | ]]; [auto | discriminate | auto].
      * destruct Hc as [| [E | ]]; [auto | discriminate | auto].
    + split; intros (Ha & Hb & Hc); (split; [| split]);
        [intros k [-> | Hk]; auto | tauto | tauto | intros k Hk; auto | left; reflexivity | ].
      destruct Hc as [| [E | ]]; [auto | discriminate | auto].
    + split; intros (Ha & Hb & Hc); (split; [| split]);
        [intros k [-> | Hk]; auto | tauto | tauto | intros k Hk; auto | | left; reflexivity].
      destruct Hb as [| [E | ]]; [auto | discriminate | auto].
    + split; [discriminate |]. intros (Ha & _). exfalso.
      destruct (Ha key (or_introl eq_refl)) as [E | [E | E]]; contradiction.
Qed.

(** A pattern with a keyword other than [source] and [metric], or missing
    one of them, makes [Refresh] report a single error without walking:
    the connector is unchanged and no pair is emitted. *)
Theorem refresh_rejects_invalid_keywords (c : RRDConnector) (re : Regexp)
    (info : string -> option (option (list string))) (entries : list WalkEntry) :
  ~ valid_keywords (SubexpNames re) ->
  exists err, Refresh c re info entries = Ok (c, [], [err]).
Proof.
  intros Hinv. unfold Refresh.
  destruct (check_keywords (SubexpNames re) false false) as [err |] eqn:E; [eauto |].
  exfalso. apply Hinv. apply check_keywords_spec in E as (Ha & [Hs | Hs] & [Hm | Hm]);
    try discriminate. split; auto.
Qed.

Lemma refresh_rejects_invalid_keywords_witness :
  Refresh conn0 re_host info0 walk_cpu = Ok (conn0, [], ["invalid pattern keyword `host'"]).
Proof.
  destruct (refresh_rejects_invalid_keywords conn0 re_host info0 walk_cpu) as [err E].
  - intros (_ & Hs & _). cbn [SubexpNames re_host] in Hs.
    apply elem_of_cons in Hs as [Hs | Hs]; [discriminate |].
    apply elem_of_cons in Hs as [Hs | Hs]; [discriminate |].
    apply list_elem_of_singleton in Hs. discriminate.
  - rewrite E. vm_compute in E. injection E as <-. reflexivity.
Defined.

Lemma WalkDir_filter (c : RRDConnector) (re : Regexp)
    (info : string -> option (option (list string))) (entries : list WalkEntry) :
  forall st, WalkDir c re info entries st = WalkDir c re info (List.filter keep_entry entries) st.
Proof.
  induction entries as [| e rest IH]; intros st; [reflexivity |].
  destruct e as [f [|] | msg]; cbn [WalkDir List.filter keep_entry]; [| apply IH | reflexivity].
  destruct (walkFunc c re info (WFile f true) st) as [[st' [err |]] | m | m]; simpl;
    [reflexivity | apply IH | reflexivity | reflexivity].
Qed.

(** Non-regular entries (directories and the like) play no part in
    [Refresh]: dropping them from the walk changes nothing. *)
Theorem refresh_skips_non_regular (c : RRDConnector) (re : Regexp)
    (info : string -> option (option (list string))) (entries : list WalkEntry) :
  Refresh c re info entries = Refresh c re info (List.filter keep_entry entries).
Proof. unfold Refresh. rewrite WalkDir_filter. reflexivity. Qed.

(** A regular file whose path is not longer than [connector.Path] (the root
    itself, for instance) makes [Refresh] panic on the slice of line 117 when
    it is the first regular file of the walk: only non-regular entries
    (directories and the like) come before it. *)
Theorem refresh_panics_on_short_path (c : RRDConnector) (re : Regexp)
    (info : string -> option (option (list string))) (pre : list WalkEntry) (f : string)
    (rest : list WalkEntry) :
  valid_keywords (SubexpNames re) ->
  Forall (fun e => keep_entry e = false) pre ->
  String.length f <= String.length (Path c) ->
  Refresh c re info (pre ++ WFile f true :: rest) = Panic "runtime error: slice bounds out of range".
Proof.
  intros (Ha & Hs & Hm) Hpre Hlen. unfold Refresh.
  assert (E : check_keywords (SubexpNames re) false false = None)
    by (apply check_keywords_spec; auto).
  rewrite E. rewrite WalkDir_filter, List.filter_app.
  assert (Hp : List.filter keep_entry pre = []).
  { induction Hpre as [| e pre He Hpre IH]; [reflexivity |]. simpl. rewrite He. exact IH. }
  rewrite Hp. simpl.
  assert (Hl : Nat.ltb (String.length f) (String.length (Path c) + 1) = true)
    by (apply Nat.ltb_lt; lia).
  rewrite Hl. reflexivity.
Qed.

Lemma refresh_panics_on_short_path_witness :
  Refresh conn_empty re0 info0 ([WFile "/rrd" false] ++ [WFile "/rrd" true])
    = Panic "runtime error: slice bounds out of range".
Proof.
  apply refresh_panics_on_short_path; [| repeat constructor | simpl; lia].
  split; [| split].
  - intros k Hk. cbn [SubexpNames re0] in Hk.
    repeat (apply elem_of_cons in Hk as [-> | Hk]; [auto |]). apply elem_of_nil in Hk. contradiction.
  - apply elem_of_cons. right. apply elem_of_cons. left. reflexivity.
  - apply elem_of_cons. right. apply elem_of_cons. right. apply elem_of_cons. left. reflexivity.
Defined.

Lemma cat_insert_same (m : catalog) (sn k : string) (v : rrdMetric) :
  catalog_entry (<[sn := <[k := v]> (default ∅ (m !! sn))]> m) sn k = Some v.
Proof. unfold catalog_entry. rewrite lookup_insert_eq. simpl. apply lookup_insert_eq. Qed.

Lemma cat_insert_other (m : catalog) (sn k0 s k : string) (v : rrdMetric) :
  s <> sn \/ k <> k0 ->
  catalog_entry (<[sn := <[k0 := v]> (default ∅ (m !! sn))]> m) s k = catalog_entry m s k.
Proof.
  unfold catalog_entry. intros H. destruct (String.eq_dec s sn) as [-> | Hs].
  - rewrite lookup_insert_eq. simpl. destruct H as [H | H]; [contradiction |].
    rewrite lookup_insert_ne by congruence.
    destruct (m !! sn); simpl; [reflexivity | apply lookup_empty].
  - rewrite lookup_insert_ne by congruence. reflexivity.
Qed.

Lemma add_datasets_spec (src met f : string) (dss : list string) :
  forall (m : catalog) out,
  let '(m', out') := add_datasets src met f dss (m, out) in
  out' = (out ++ map (fun ds => (src, met +:+ "/" +:+ ds)) dss)%list /\
  (forall ds, ds ∈ dss -> catalog_entry m' src (met +:+ "/" +:+ ds) =
                          Some {| Dataset := ds; FilePath := f |}) /\
  (forall s k, (s <> src \/ forall ds, ds ∈ dss -> k <> met +:+ "/" +:+ ds) ->
     catalog_entry m' s k = catalog_entry m s k) /\
  (forall s, s <> src -> m' !! s = m !! s) /\
  (is_Some (m !! src) -> is_Some (m' !! src)).
Proof.
  induction dss as [| ds0 rest IH]; intros m out; simpl.
  - rewrite app_nil_r. split; [reflexivity |]. split; [intros ds Hd; apply elem_of_nil in Hd; contradiction |].
    auto.
  - set (m1 := <[src := <[met +:+ "/" +:+ ds0 := {| Dataset := ds0; FilePath := f |}]>
                         (default ∅ (m !! src))]> m).
    specialize (IH m1 (out ++ [(src, met +:+ "/" +:+ ds0)])%list).
    destruct (add_datasets src met f rest _) as [m' out'].
    destruct IH as (Hout & Hin & Hfr & Hsrc & Hsome).
    split; [rewrite Hout, <- app_assoc; reflexivity |].
    split; [| split; [| split]].
    + intros ds Hds. destruct (decide (ds ∈ rest)) as [Hr | Hr]; [exact (Hin ds Hr) |].
      apply elem_of_cons in Hds as [-> | Hds]; [| contradiction].
      rewrite Hfr.
      * apply cat_insert_same.
      * right. intros ds' Hds' E. apply append_cancel_l in E.
        change ("/" +:+ ds0) with (String "/"%char ds0) in E.
        change ("/" +:+ ds') with (String "/"%char ds') in E.
        injection E as ->. contradiction.
    + intros s k Hk. rewrite Hfr.
      * apply cat_insert_other. destruct Hk as [Hk | Hk]; [left; exact Hk |].
        right. apply Hk. apply elem_of_cons. left. reflexivity.
      * destruct Hk as [Hk | Hk]; [left; exact Hk |].
        right. intros ds Hds. apply Hk. apply elem_of_cons. right. exact Hds.
    + intros s Hs. rewrite Hsrc by exact Hs. unfold m1. apply lookup_insert_ne. congruence.
    + intros _. apply Hsome. unfold m1. rewrite lookup_insert_eq. eauto.
Qed.

Lemma walkFunc_matched (c : RRDConnector) (re : Regexp)
    (info : string -> option (option (list string))) (f s0 s1 s2 n1 src met : string)
    (rest : list string) (m : catalog) (out : list (string * string)) :
  String.length (Path c) + 1 <= String.length f ->
  FindStringSubmatch re (rel_path c f) = s0 :: s1 :: s2 :: rest ->
  SubexpNames re !! 1 = Some n1 ->
  (src, met) = (if String.eqb n1 "source" then (s1, s2) else (s2, s1)) ->
  let m1 := match m !! src with Some _ => m | None => <[src := ∅]> m end in
  walkFunc c re info (WFile f true) (m, out) =
  match info f with
  | None => Ok ((m1, out), None)
  | Some None => Ok ((m1, out), None)
  | Some (Some dss) => Ok (add_datasets src met f dss (m1, out), None)
  end.
Proof.
  intros Hlen Hsub Hn1 Hsm. unfold walkFunc. cbv zeta.
  assert (Hl : Nat.ltb (String.length f) (String.length (Path c) + 1) = false)
    by (apply Nat.ltb_ge; lia).
  rewrite Hl. unfold rel_path in Hsub. rewrite Hsub. cbn [negb List.length Nat.eqb].
  assert (E : nth_res (SubexpNames re) 1 = Ok n1) by (unfold nth_res; rewrite Hn1; reflexivity).
  rewrite E. simpl. rewrite <- Hsm. reflexivity.
Qed.

(** A regular file whose relative path matches the pattern and whose
    [rrd.Info] lists datasets: each dataset [ds] is emitted, in order, as the
    pair (source, metric/ds) and catalogued under it with its dataset and
    file path; no other catalog entry changes, and the source has its map.
    Which submatch is the source follows the position of the [source]
    keyword. *)
Theorem walkfile_catalogs_datasets (c : RRDConnector) (re : Regexp)
    (info : string -> option (option (list string))) (f s0 s1 s2 n1 src met : string)
    (rest dss : list string) (m : catalog) (out : list (string * string)) :
  String.length (Path c) + 1 <= String.length f ->
  FindStringSubmatch re (rel_path c f) = s0 :: s1 :: s2 :: rest ->
  SubexpNames re !! 1 = Some n1 ->
  (src, met) = (if String.eqb n1 "source" then (s1, s2) else (s2, s1)) ->
  info f = Some (Some dss) ->
  exists m', walkFunc c re info (WFile f true) (m, out) =
    Ok ((m', (out ++ map (fun ds => (src, met +:+ "/" +:+ ds)) dss)%list), None) /\
  (forall ds, ds ∈ dss ->
     catalog_entry m' src (met +:+ "/" +:+ ds) = Some {| Dataset := ds; FilePath := f |}) /\
  (forall s k, (s <> src \/ forall ds, ds ∈ dss -> k <> met +:+ "/" +:+ ds) ->
     catalog_entry m' s k = catalog_entry m s k) /\
  is_Some (m' !! src).
Proof.
  intros Hlen Hsub Hn1 Hsm Hinfo.
  rewrite (walkFunc_matched c re info f s0 s1 s2 n1 src met rest m out Hlen Hsub Hn1 Hsm), Hinfo.
  set (m1 := match m !! src with Some _ => m | None => <[src := ∅]> m end).
  assert (Hm1 : forall s k, catalog_entry m1 s k = catalog_entry m s k).
  { intros s k. unfold m1, catalog_entry. destruct (m !! src) eqn:E; [reflexivity |].
    destruct (String.eq_dec s src) as [-> | Hs].
    - rewrite lookup_insert_eq, E. simpl. apply lookup_empty.
    - rewrite lookup_insert_ne by congruence. reflexivity. }
  assert (Hs1 : is_Some (m1 !! src)).
  { unfold m1. destruct (m !! src) eqn:E; [rewrite E; eauto | rewrite lookup_insert_eq; eauto]. }
  pose proof (add_datasets_spec src met f dss m1 out) as Hspec.
  destruct (add_datasets src met f dss (m1, out)) as [m' out'].
  destruct Hspec as (-> & Hin & Hfr & _ & Hsome).
  exists m'. split; [reflexivity |]. split; [exact Hin |]. split; [| exact (Hsome Hs1)].
  intros s k Hk. rewrite Hfr by exact Hk. apply Hm1.
Qed.

Lemma walkfile_catalogs_datasets_witness :
  exists m', walkFunc conn_empty re0 info0 (WFile "/rrd/host1/cpu.rrd" true) (∅, []) =
    Ok ((m', (([] : list (string * string)) ++ map (fun ds => ("host1", "cpu" +:+ "/" +:+ ds)) ["value"])%list), None) /\
  (forall ds, ds ∈ ["value"] ->
     catalog_entry m' "host1" ("cpu" +:+ "/" +:+ ds) = Some {| Dataset := ds; FilePath := "/rrd/host1/cpu.rrd" |}) /\
  (forall s k, (s <> "host1" \/ forall ds, ds ∈ ["value"] -> k <> "cpu" +:+ "/" +:+ ds) ->
     catalog_entry m' s k = catalog_entry ∅ s k) /\
  is_Some (m' !! "host1").
Proof.
  exact (walkfile_catalogs_datasets conn_empty re0 info0 "/rrd/host1/cpu.rrd" "host1/cpu.rrd"
           "host1" "cpu" "source" "host1" "cpu" [] ["value"] ∅ []
           ltac:(simpl; lia) ltac:(vm_compute; reflexivity) eq_refl eq_refl eq_refl).
Defined.

(** A matching regular file whose [rrd.Info] fails, or has no
    [ds.index], still registers its source (with an empty metric map when
    the source was new), emits nothing and leaves other sources alone. *)
Theorem walkfile_registers_source_without_info (c : RRDConnector) (re : Regexp)
    (info : string -> option (option (list string))) (f s0 s1 s2 n1 src met : string)
    (rest : list string) (m : catalog) (out : list (string * string)) :
  String.length (Path c) + 1 <= String.length f ->
  FindStringSubmatch re (rel_path c f) = s0 :: s1 :: s2 :: rest ->
  SubexpNames re !! 1 = Some n1 ->
  (src, met) = (if String.eqb n1 "source" then (s1, s2) else (s2, s1)) ->
  info f = None \/ info f = Some None ->
  exists m', walkFunc c re info (WFile f true) (m, out) = Ok ((m', out), None) /\
  m' !! src = Some (default ∅ (m !! src)) /\ (forall s, s <> src -> m' !! s = m !! s).
Proof.
  intros Hlen Hsub Hn1 Hsm Hinfo.
  rewrite (walkFunc_matched c re info f s0 s1 s2 n1 src met rest m out Hlen Hsub Hn1 Hsm).
  exists (match m !! src with Some _ => m | None => <[src := ∅]> m end).
  split; [destruct Hinfo as [-> | ->]; reflexivity |].
  destruct (m !! src) eqn:E; simpl.
  - split; [exact E | auto].
  - split; [apply lookup_insert_eq |]. intros s Hs. apply lookup_insert_ne. congruence.
Qed.

Lemma walkfile_registers_source_without_info_witness :
  exists m', walkFunc conn_empty re0 info_fail (WFile "/rrd/host1/cpu.rrd" true) (∅, []) =
    Ok ((m', []), None) /\
  m' !! "host1" = Some (default ∅ ((∅ : catalog) !! "host1")) /\
  (forall s, s <> "host1" -> m' !! s = (∅ : catalog) !! s).
Proof.
  exact (walkfile_registers_source_without_info conn_empty re0 info_fail "/rrd/host1/cpu.rrd"
           "host1/cpu.rrd" "host1" "cpu" "source" "host1" "cpu" [] ∅ []
           ltac:(simpl; lia) ltac:(vm_compute; reflexivity) eq_refl eq_refl (or_introl eq_refl)).
Defined.

(* ------------------------------------------------------------------ *)
(** ** rrdGetData: operator types, catalog misses, info-only runs *)

(** An operator type other than None, Avg and Sum is rejected with
    "unknown `<type>' operator type" when the query has two or more series,
    with the engine untouched; a one-series query is first collapsed to None
    and so processed as the None-type query. *)
Theorem rrdGetData_unknown_type (eng : Engine) (c : RRDConnector) (q : GroupQuery)
    (startT endT step : Z) (pcts : list Q) (io : bool) (es : EngineState) :
  ~ (gq_Type q = OperGroupTypeNone \/ gq_Type q = OperGroupTypeAvg \/ gq_Type q = OperGroupTypeSum) ->
  (List.length (gq_Series q) = 1 ->
   rrdGetData eng c q startT endT step pcts io es =
   rrdGetData eng c (with_type q OperGroupTypeNone) startT endT step pcts io es) /\
  (2 <= List.length (gq_Series q) ->
   rrdGetData eng c q startT endT step pcts io es =
   (q, Err ("unknown `" +:+ ztoa (gq_Type q) +:+ "' operator type"), es)).
Proof.
  intros Hty.
  assert (Hne : (gq_Type q =? OperGroupTypeNone)%Z = false)
    by (apply Z.eqb_neq; intros E; apply Hty; auto).
  assert (Hna : (gq_Type q =? OperGroupTypeAvg)%Z = false)
    by (apply Z.eqb_neq; intros E; apply Hty; auto).
  assert (Hns : (gq_Type q =? OperGroupTypeSum)%Z = false)
    by (apply Z.eqb_neq; intros E; apply Hty; auto).
  split.
  - intros Hl.
    assert (Hc : collapse_type q = with_type q OperGroupTypeNone).
    { unfold collapse_type. rewrite Hne, Hl. reflexivity. }
    rewrite <- rrdGetData_on_collapsed, Hc.
    rewrite <- (rrdGetData_on_collapsed eng c (with_type q OperGroupTypeNone)).
    reflexivity.
  - intros Hl.
    assert (Hc : collapse_type q = q).
    { unfold collapse_type. rewrite Hne.
      destruct (Nat.eqb_spec (List.length (gq_Series q)) 1); [lia | reflexivity]. }
    unfold rrdGetData.
    assert (Hn0 : Nat.eqb (List.length (gq_Series q)) 0 = false) by (apply Nat.eqb_neq; lia).
    rewrite Hn0, Hc. unfold rrdCompile. rewrite Hne, Hna, Hns. reflexivity.
Qed.

Lemma rrdGetData_unknown_type_witness :
  rrdGetData eng0 conn0 q_type7 0 2 1 [] false es0 =
  (q_type7, Err ("unknown `" +:+ ztoa 7 +:+ "' operator type"), es0).
Proof.
  exact (proj2 (rrdGetData_unknown_type eng0 conn0 q_type7 0 2 1 [] false es0
                  ltac:(unfold OperGroupTypeNone, OperGroupTypeAvg, OperGroupTypeSum; simpl; lia))
               ltac:(simpl; lia)).
Defined.

Lemma metric_lookup_missing (ms : catalog) (mq : MetricQuery) :
  lookup_opt ms mq = None -> metric_lookup ms mq = Panic nil_deref.
Proof.
  unfold lookup_opt, metric_lookup. destruct (ms !! mq_SourceName mq) as [inner |]; simpl;
    [destruct (inner !! mq_Name mq); [discriminate | reflexivity] | reflexivity].
Qed.

Lemma metric_lookup_cases (ms : catalog) (mq : MetricQuery) :
  (exists rm, metric_lookup ms mq = Ok rm) \/ metric_lookup ms mq = Panic nil_deref.
Proof.
  unfold metric_lookup. destruct (ms !! mq_SourceName mq) as [inner |]; [| auto].
  destruct (inner !! mq_Name mq); eauto.
Qed.

Lemma has_missing_cons (ms : catalog) (serie : SerieQuery) (rest : list SerieQuery) :
  has_missing ms (serie :: rest) ->
  (exists mq, sq_Metric serie = Some mq /\ lookup_opt ms mq = None) \/ has_missing ms rest.
Proof.
  intros (s & mq & Hin & Hm & Hl). apply elem_of_cons in Hin as [-> | Hin]; [eauto |].
  right. exists s, mq. auto.
Qed.

Lemma none_loop_missing (c : RRDConnector) (q : GroupQuery) (pcts : list Q) (io : bool)
    (series : list SerieQuery) :
  forall st, has_missing (metrics c) series -> none_loop c q pcts io series st = Panic nil_deref.
Proof.
  induction series as [| serie rest IH]; intros st Hm.
  - destruct Hm as (s & mq & Hin & _). apply elem_of_nil in Hin. contradiction.
  - apply has_missing_cons in Hm. simpl.
    destruct (sq_Metric serie) as [mq' |] eqn:Hs.
    + destruct (metric_lookup_cases (metrics c) mq') as [[rm E] | E]; rewrite E; simpl;
        [| reflexivity].
      destruct Hm as [(mq & Hmq & Hl) | Hm]; [| apply IH; exact Hm].
      injection Hmq as <-. rewrite metric_lookup_missing in E by exact Hl.
      discriminate.
    + destruct Hm as [(mq & Hmq & _) | Hm]; [congruence | apply IH; exact Hm].
Qed.

Lemma agg_loop_missing (c : RRDConnector) (io : bool) (sn : string) (series : list SerieQuery) :
  forall idx st, has_missing (metrics c) series -> agg_loop c io sn idx series st = Panic nil_deref.
Proof.
  induction series as [| serie rest IH]; intros idx st Hm.
  - destruct Hm as (s & mq & Hin & _). apply elem_of_nil in Hin. contradiction.
  - apply has_missing_cons in Hm. simpl.
    destruct (sq_Metric serie) as [mq' |] eqn:Hs.
    + destruct (metric_lookup_cases (metrics c) mq') as [[rm E] | E]; rewrite E; simpl;
        [| reflexivity].
      destruct Hm as [(mq & Hmq & Hl) | Hm]; [| apply IH; exact Hm].
      injection Hmq as <-. rewrite metric_lookup_missing in E by exact Hl.
      discriminate.
    + destruct Hm as [(mq & Hmq & _) | Hm]; [congruence | apply IH; exact Hm].
Qed.

(** A series whose metric is not in the catalog makes [rrdGetData] panic on
    the nil entry (lines 206-207 and 267-268), whatever the other series and
    for each of the three operator types; no export is run. *)
Theorem rrdGetData_missing_metric_panics (eng : Engine) (c : RRDConnector) (q : GroupQuery)
    (startT endT step : Z) (pcts : list Q) (io : bool) (es : EngineState)
    (serie : SerieQuery) (mq : MetricQuery) :
  (gq_Type q = OperGroupTypeNone \/ gq_Type q = OperGroupTypeAvg \/ gq_Type q = OperGroupTypeSum) ->
  serie ∈ gq_Series q -> sq_Metric serie = Some mq -> lookup_opt (metrics c) mq = None ->
  rrdGetData eng c q startT endT step pcts io es = (collapse_type q, Panic nil_deref, es).
Proof.
  intros Hty Hin Hs Hl.
  assert (Hm : has_missing (metrics c) (gq_Series q)) by (exists serie, mq; auto).
  assert (Hn0 : Nat.eqb (List.length (gq_Series q)) 0 = false).
  { apply Nat.eqb_neq. intros E. destruct (gq_Series q); [| discriminate].
    apply elem_of_nil in Hin. contradiction. }
  assert (Hc : rrdCompile c (collapse_type q) pcts io = Panic nil_deref).
  { destruct (gq_Type q =? OperGroupTypeNone)%Z eqn:Hn.
    - assert (Hc : collapse_type q = q) by (unfold collapse_type; rewrite Hn; reflexivity).
      rewrite Hc. unfold rrdCompile. rewrite Hn. apply none_loop_missing. exact Hm.
    - destruct (Nat.eqb_spec (List.length (gq_Series q)) 1) as [E1 | E1].
      + assert (Hc : collapse_type q = with_type q OperGroupTypeNone)
          by (unfold collapse_type; rewrite Hn, E1; reflexivity).
        rewrite Hc. unfold rrdCompile. simpl. apply none_loop_missing. exact Hm.
      + assert (Hc : collapse_type q = q).
        { unfold collapse_type. rewrite Hn. apply Nat.eqb_neq in E1. rewrite E1. reflexivity. }
        rewrite Hc. unfold rrdCompile. rewrite Hn.
        assert (Hag : ((gq_Type q =? OperGroupTypeAvg)%Z || (gq_Type q =? OperGroupTypeSum)%Z)%bool = true).
        { destruct Hty as [Ht | [Ht | Ht]]; rewrite Ht in Hn |- *; [discriminate | reflexivity | reflexivity]. }
        rewrite Hag. unfold agg_case. rewrite agg_loop_missing by exact Hm. reflexivity. }
  unfold rrdGetData. rewrite Hn0, Hc. reflexivity.
Qed.

Lemma rrdGetData_missing_metric_panics_witness :
  rrdGetData eng0 conn0 q_bad 0 2 1 [] false es0 = (collapse_type q_bad, Panic nil_deref, es0).
Proof.
  exact (rrdGetData_missing_metric_panics eng0 conn0 q_bad 0 2 1 [] false es0 s_bad _
           (or_intror (or_intror eq_refl))
           ltac:(apply elem_of_cons; right; apply elem_of_cons; left; reflexivity)
           eq_refl ltac:(vm_compute; reflexivity)).
Defined.

Lemma none_loop_frame (c : RRDConnector) (q : GroupQuery) (pcts : list Q) (io : bool)
    (series : list SerieQuery) :
  forall st st', none_loop c q pcts io series st = Ok st' ->
  g_daemon (cs_graph st') = g_daemon (cs_graph st) /\
  x_daemon (cs_xport st') = x_daemon (cs_xport st) /\
  (io = true -> cs_xport st' = cs_xport st).
Proof.
  induction series as [| serie rest IH]; intros st st' H; simpl in H.
  - injection H as <-. auto.
  - destruct (sq_Metric serie) as [mq |]; [| exact (IH _ _ H)].
    destruct (metric_lookup (metrics c) mq) as [rm | m | m]; simpl in H; try discriminate.
    destruct (IH _ _ H) as (Hg & Hx & Hio). simpl in Hg, Hx, Hio.
    split; [exact Hg |]. destruct io; simpl in *; split; auto; intros; discriminate.
Qed.

Lemma agg_loop_frame (c : RRDConnector) (io : bool) (sn : string) (series : list SerieQuery) :
  forall idx st st', agg_loop c io sn idx series st = Ok st' ->
  g_daemon (cs_graph st') = g_daemon (cs_graph st) /\
  x_daemon (cs_xport st') = x_daemon (cs_xport st) /\
  (io = true -> cs_xport st' = cs_xport st).
Proof.
  induction series as [| serie rest IH]; intros idx st st' H; simpl in H.
  - injection H as <-. auto.
  - destruct (sq_Metric serie) as [mq |]; [| exact (IH _ _ _ H)].
    destruct (metric_lookup (metrics c) mq) as [rm | m | m]; simpl in H; try discriminate.
    destruct (IH _ _ _ H) as (Hg & Hx & Hio). simpl in Hg, Hx, Hio.
    split; [exact Hg |]. destruct io; simpl in *; split; auto; intros; discriminate.
Qed.

Lemma rrdCompile_frame (c : RRDConnector) (q : GroupQuery) (pcts : list Q) (io : bool)
    (st : CState) :
  rrdCompile c q pcts io = Ok st ->
  g_daemon (cs_graph st) = Daemon c /\
  (io = false -> x_daemon (cs_xport st) = Daemon c) /\
  (io = true -> x_prog (cs_xport st) = []).
Proof.
  intros H.
  assert (Hg0 : g_daemon (if negb (String.eqb (Daemon c) "") then g_set_daemon NewGrapher (Daemon c)
                          else NewGrapher) = Daemon c)
    by (destruct (String.eqb_spec (Daemon c) "") as [E | E]; simpl; congruence).
  assert (Hx0 : x_daemon (if negb (String.eqb (Daemon c) "") then x_set_daemon NewExporter (Daemon c)
                          else NewExporter) = Daemon c)
    by (destruct (String.eqb_spec (Daemon c) "") as [E | E]; simpl; congruence).
  unfold rrdCompile in H.
  destruct (gq_Type q =? OperGroupTypeNone)%Z.
  - destruct (none_loop_frame _ _ _ _ _ _ _ H) as (Hg & Hx & Hio). simpl in Hg, Hx, Hio.
    rewrite Hg. split; [exact Hg0 |]. split.
    + intros ->. rewrite Hx. exact Hx0.
    + intros ->. rewrite (Hio eq_refl). reflexivity.
  - destruct (((gq_Type q =? OperGroupTypeAvg)%Z || (gq_Type q =? OperGroupTypeSum)%Z)%bool);
      [| discriminate].
    unfold agg_case in H.
    destruct (agg_loop c io _ 0 (gq_Series q) _) as [st2 | m | m] eqn:E; simpl in H;
      try discriminate.
    injection H as <-.
    destruct (agg_loop_frame _ _ _ _ _ _ _ E) as (Hg & Hx & Hio). simpl in Hg, Hx, Hio.
    simpl. rewrite Hg. split; [exact Hg0 |]. split.
    + intros ->. simpl. rewrite Hx. exact Hx0.
    + intros ->. simpl. rewrite (Hio eq_refl). reflexivity.
Qed.

(** Both engine programs built by [rrdGetData] are bound to the connector's
    daemon: the grapher always, the exporter whenever plots are requested
    (an empty [Daemon] leaves both on the default). *)
Theorem rrdCompile_daemon (c : RRDConnector) (q : GroupQuery) (pcts : list Q) (io : bool)
    (st : CState) :
  rrdCompile c q pcts io = Ok st ->
  g_daemon (cs_graph st) = Daemon c /\ (io = false -> x_daemon (cs_xport st) = Daemon c).
Proof.
  intros H. destruct (rrdCompile_frame c q pcts io st H) as (Hg & Hx & _). auto.
Qed.

Lemma rrdCompile_daemon_witness :
  exists st, rrdCompile conn0 q_sum2 [] false = Ok st /\
  g_daemon (cs_graph st) = Daemon conn0 /\ (false = false -> x_daemon (cs_xport st) = Daemon conn0).
Proof.
  eexists. split; [reflexivity |].
  exact (rrdCompile_daemon conn0 q_sum2 [] false _ eq_refl).
Defined.

Lemma rrdParseInfo_no_plots (pf : string -> option PlotValue) (print : list string) :
  forall data data',
  (forall l pr, data !! l = Some pr -> Plots pr = []) ->
  rrdParseInfo pf print data = Ok data' ->
  forall l pr, data' !! l = Some pr -> Plots pr = [].
Proof.
  induction print as [| v rest IH]; intros data data' Hd H; simpl in H.
  - injection H as <-. exact Hd.
  - unfold parse_info_line in H.
    destruct (SplitN v ","%char 3) as [| c0 [| c1 [| c2 cs]]]; simpl in H; try discriminate.
    refine (IH _ _ _ H). intros l pr Hl.
    destruct (String.eq_dec c0 l) as [<- | Hne].
    + rewrite lookup_insert_eq in Hl. injection Hl as <-. simpl.
      destruct (data !! c0) as [pr0 |] eqn:E; [exact (Hd _ _ E) | reflexivity].
    + rewrite lookup_insert_ne in Hl by exact Hne. exact (Hd _ _ Hl).
Qed.

(** An info-only run ([infoOnly] true) never exports: it builds no export
    program, allocates no engine buffer (the engine state is returned as
    given), and every entry of its result has no samples. *)
Theorem rrdGetData_info_only (eng : Engine) (c : RRDConnector) (q : GroupQuery)
    (startT endT step : Z) (pcts : list Q) (es : EngineState)
    (q' : GroupQuery) (r : Res (gmap string PlotResult)) (es' : EngineState) :
  rrdGetData eng c q startT endT step pcts true es = (q', r, es') ->
  es' = es /\
  (forall res, r = Ok res -> forall l pr, res !! l = Some pr -> Plots pr = []) /\
  (forall st, rrdCompile c (collapse_type q) pcts true = Ok st -> x_prog (cs_xport st) = []).
Proof.
  intros H. split; [| split].
  - unfold rrdGetData in H.
    destruct (Nat.eqb (List.length (gq_Series q)) 0); [congruence |].
    destruct (rrdCompile c (collapse_type q) pcts true) as [st | m | m]; try congruence.
    cbn [FreeValues XportResult_zero xr_buf] in H.
    destruct (eng_graph eng (cs_graph st) startT endT) as [print | m | m]; try congruence.
    destruct (rrdParseInfo ParseFloat print ∅) as [res | m | m]; congruence.
  - intros res -> l pr. unfold rrdGetData in H.
    destruct (Nat.eqb (List.length (gq_Series q)) 0); [congruence |].
    destruct (rrdCompile c (collapse_type q) pcts true) as [st | m | m]; try congruence.
    cbn [FreeValues XportResult_zero xr_buf] in H.
    destruct (eng_graph eng (cs_graph st) startT endT) as [print | m | m]; try congruence.
    destruct (rrdParseInfo ParseFloat print ∅) as [res' | m | m] eqn:E; try congruence.
    injection H as _ <- _.
    apply (rrdParseInfo_no_plots _ _ _ _ (fun l pr Hl => ltac:(rewrite lookup_empty in Hl; discriminate)) E).
  - intros st Hst. exact (proj2 (proj2 (rrdCompile_frame _ _ _ _ _ Hst)) eq_refl).
Qed.

Lemma rrdGetData_info_only_witness :
  exists q' r es', rrdGetData eng0 conn0 q_sum2 0 2 1 [] true es0 = (q', r, es') /\
  es' = es0 /\
  (forall res, r = Ok res -> forall l pr, res !! l = Some pr -> Plots pr = []) /\
  (forall st, rrdCompile conn0 (collapse_type q_sum2) [] true = Ok st -> x_prog (cs_xport st) = []).
Proof.
  do 3 eexists. split; [reflexivity |].
  exact (rrdGetData_info_only eng0 conn0 q_sum2 0 2 1 [] es0 _ _ _ eq_refl).
Defined.

Lemma serie_name_inj (a b : nat) : "serie" +:+ itoa a = "serie" +:+ itoa b -> a = b.
Proof.
  intros H. apply append_cancel_l in H.
  rewrite <- (append_empty_r (itoa a)), <- (append_empty_r (itoa b)) in H.
  exact (proj1 (itoa_app_inj a b "" "" I I H)).
Qed.

Lemma with_metric_cons (serie : SerieQuery) (rest : list SerieQuery) :
  with_metric (serie :: rest) =
  match sq_Metric serie with Some _ => serie :: with_metric rest | None => with_metric rest end.
Proof. unfold with_metric. simpl. destruct (sq_Metric serie); reflexivity. Qed.

Lemma none_loop_labels (c : RRDConnector) (q : GroupQuery) (pcts : list Q) (io : bool)
    (series : list SerieQuery) :
  forall st st', none_loop c q pcts io series st = Ok st' ->
  cs_count st' = (cs_count st + List.length (with_metric series))%nat /\
  (forall j, (j < List.length (with_metric series))%nat ->
     cs_series st' !! ("serie" +:+ itoa (cs_count st + j)) = sq_Name <$> with_metric series !! j) /\
  (forall l, (forall j, (j < List.length (with_metric series))%nat ->
                l <> "serie" +:+ itoa (cs_count st + j)) ->
     cs_series st' !! l = cs_series st !! l) /\
  (forall l v, cs_series st' !! l = Some v ->
     cs_series st !! l = Some v \/ exists j, l = "serie" +:+ itoa (cs_count st + j)).
Proof.
  induction series as [| serie rest IH]; intros st st' H; rewrite with_metric_cons || idtac.
  - simpl in H. injection H as <-. simpl.
    split; [lia |]. split; [intros j Hj; lia |]. split; [auto |]. intros l v Hl; auto.
  - simpl in H. destruct (sq_Metric serie) as [mq |] eqn:Hs; [| exact (IH _ _ H)].
    destruct (metric_lookup (metrics c) mq) as [rm | m | m]; simpl in H; try discriminate.
    destruct (IH _ _ H) as (Hc & Hb & Ha & He). simpl in Hc, Hb, Ha, He.
    set (n := cs_count st) in *. simpl List.length.
    split; [lia |]. split; [| split].
    + intros [| j] Hj.
      * rewrite Nat.add_0_r. simpl.
        rewrite Ha; [rewrite lookup_insert_eq; reflexivity |].
        intros j Hj' Heq. apply serie_name_inj in Heq. lia.
      * simpl. rewrite <- (Hb j) by lia. replace (n + S j)%nat with (S n + j)%nat by lia.
        reflexivity.
    + intros l Hl. rewrite Ha.
      * apply lookup_insert_ne. intros Heq. apply (Hl 0%nat); [lia |].
        rewrite Nat.add_0_r. symmetry. exact Heq.
      * intros j Hj Heq. apply (Hl (S j)); [lia |]. rewrite Heq.
        replace (n + S j)%nat with (S n + j)%nat by lia. reflexivity.
    + intros l v Hl. destruct (He l v Hl) as [Hl' | (j & ->)].
      * destruct (String.eq_dec l ("serie" +:+ itoa n)) as [-> | Hne].
        -- right. exists 0%nat. rewrite Nat.add_0_r. reflexivity.
        -- left. rewrite lookup_insert_ne in Hl' by (intros E; apply Hne; symmetry; exact E).
           exact Hl'.
      * right. exists (S j). replace (n + S j)%nat with (S n + j)%nat by lia. reflexivity.
Qed.

(** In [OperGroupTypeNone] mode the label table of the compiled query has
    one entry per series naming a metric: [serie<k>] is labelled with the
    name of the k-th such series (in query order), and there is no other key. *)
Theorem none_compile_labels (c : RRDConnector) (q : GroupQuery) (pcts : list Q) (io : bool)
    (st : CState) :
  gq_Type q = OperGroupTypeNone -> rrdCompile c q pcts io = Ok st ->
  cs_count st = List.length (with_metric (gq_Series q)) /\
  (forall k, cs_series st !! ("serie" +:+ itoa k) = sq_Name <$> with_metric (gq_Series q) !! k) /\
  (forall l v, cs_series st !! l = Some v -> exists k, l = "serie" +:+ itoa k).
Proof.
  intros Hty H. unfold rrdCompile in H. rewrite Hty in H. simpl in H.
  destruct (none_loop_labels _ _ _ _ _ _ _ H) as (Hc & Hb & Ha & He). simpl in Hc, Hb, Ha, He.
  split; [exact Hc |]. split.
  - intros k. destruct (Nat.lt_ge_cases k (List.length (with_metric (gq_Series q)))) as [Hk | Hk].
    + exact (Hb k Hk).
    + rewrite Ha.
      * rewrite lookup_empty. symmetry. apply fmap_None. apply lookup_ge_None_2. exact Hk.
      * intros j Hj Heq. apply serie_name_inj in Heq. lia.
  - intros l v Hl. destruct (He l v Hl) as [Hl' | (j & ->)].
    + rewrite lookup_empty in Hl'. discriminate.
    + exists j. reflexivity.
Qed.

Lemma none_compile_labels_witness :
  exists st, gq_Type q_none3 = OperGroupTypeNone /\ rrdCompile conn0 q_none3 [] false = Ok st /\
  cs_count st = List.length (with_metric (gq_Series q_none3)) /\
  (forall k, cs_series st !! ("serie" +:+ itoa k) = sq_Name <$> with_metric (gq_Series q_none3) !! k) /\
  (forall l v, cs_series st !! l = Some v -> exists k, l = "serie" +:+ itoa k).
Proof.
  eexists. split; [reflexivity |]. split; [reflexivity |].
  exact (none_compile_labels conn0 q_none3 [] false _ eq_refl eq_refl).
Defined.

Lemma fmt_fixed6_small (s : Q) :
  (Qabs s <= 1 # 2000000)%Q ->
  fmt_fixed 6 s = (if (Qnum s <? 0)%Z then "-" else "") +:+ "0.000000".
Proof.
  destruct s as [n d]. unfold Qabs, Qle. simpl. intros H.
  assert (Hm : round_half_even (Z.abs n * 10 ^ Z.of_nat 6) (Zpos d) = 0%Z).
  { unfold round_half_even. cbv zeta. change (Z.of_nat 6) with 6%Z.
    assert (H0 : (0 <= Z.abs n * 10 ^ 6 < Zpos d)%Z) by lia.
    rewrite (Z.div_small _ _ H0), (Z.mod_small _ _ H0).
    destruct (2 * (Z.abs n * 10 ^ 6) >? Zpos d)%Z eqn:E1; [apply Z.gtb_lt in E1; lia |].
    simpl. rewrite andb_false_r. reflexivity. }
  unfold fmt_fixed. cbv zeta. simpl Qnum. simpl Qden. rewrite Hm. reflexivity.
Qed.

(** A non-zero scale factor of magnitude at most 5e-7 still selects the
    scaling expression ([is_zero] is false) but is formatted by ["%f"] as
    [0.000000] (or [-0.000000]), so the scaled series is multiplied by zero. *)
Theorem scale_expr_rounds_to_zero (v : string) (s : Q) :
  ~ (s == 0)%Q -> (Qabs s <= 1 # 2000000)%Q ->
  negb (is_zero s) = true /\
  scale_expr v s = v +:+ "," +:+ (if (Qnum s <? 0)%Z then "-" else "") +:+ "0.000000" +:+ ",*".
Proof.
  intros Hnz Hs. split.
  - unfold is_zero. destruct (Qeq_bool s 0) eqn:E; [| reflexivity].
    apply Qeq_bool_iff in E. contradiction.
  - unfold scale_expr. rewrite (fmt_fixed6_small s Hs). rewrite append_assoc_str. reflexivity.
Qed.

Lemma scale_expr_rounds_to_zero_witness :
  ~ (1 # 10000000 == 0)%Q /\ (Qabs (1 # 10000000) <= 1 # 2000000)%Q /\
  negb (is_zero (1 # 10000000)) = true /\
  scale_expr "serie0-orig0" (1 # 10000000) =
    "serie0-orig0" +:+ "," +:+ (if (Qnum (1 # 10000000) <? 0)%Z then "-" else "")
      +:+ "0.000000" +:+ ",*".
Proof.
  assert (H1 : ~ (1 # 10000000 == 0)%Q) by (unfold Qeq; simpl; discriminate).
  assert (H2 : (Qabs (1 # 10000000) <= 1 # 2000000)%Q) by (unfold Qle; simpl; lia).
  split; [exact H1 |]. split; [exact H2 |].
  exact (scale_expr_rounds_to_zero "serie0-orig0" (1 # 10000000) H1 H2).
Defined.

Lemma set_graph_pcts_defs (serieName itemName : string) (pcts : list Q) :
  forall (index i : nat) (p : Q), pcts !! i = Some p ->
  ICDef (serieName +:+ "-cdef" +:+ itoa (index + i))
        (serieName +:+ ",UN,0," +:+ serieName +:+ ",IF")
    ∈ set_graph_pcts serieName itemName index pcts /\
  IVDef (serieName +:+ "-vdef" +:+ itoa (index + i))
        (serieName +:+ "-cdef" +:+ itoa (index + i) +:+ "," +:+ fmt_fixed 6 p +:+ ",PERCENT")
    ∈ set_graph_pcts serieName itemName index pcts.
Proof.
  induction pcts as [| p0 rest IH]; intros index i p Hi; [discriminate |].
  destruct i as [| i]; simpl in Hi.
  - injection Hi as <-. rewrite Nat.add_0_r. simpl. split.
    + apply elem_of_cons. left. reflexivity.
    + apply list_elem_of_further, elem_of_cons. left. reflexivity.
  - simpl. replace (index + S i)%nat with (S index + i)%nat by lia.
    destruct (IH (S index) i p Hi) as [H1 H2].
    split; do 3 apply list_elem_of_further; assumption.
Qed.

Lemma length_set_graph_pcts (serieName itemName : string) (pcts : list Q) :
  forall index, List.length (set_graph_pcts serieName itemName index pcts) = (3 * List.length pcts)%nat.
Proof. induction pcts as [| p rest IH]; intros index; simpl; [reflexivity | rewrite IH; lia]. Qed.

(** For the i-th requested percentile p, [rrdSetGraph] defines
    [<serie>-cdef<i>] as the series with unknown values replaced by zero
    and [<serie>-vdef<i>] as its p-th percentile (p printed with ["%f"]);
    it appends exactly eight instructions for min/avg/max/last and three
    per percentile, after the grapher's existing program. *)
Theorem rrdSetGraph_percentile_defs (graph : Grapher) (serieName itemName : string)
    (pcts : list Q) :
  (forall i p, pcts !! i = Some p ->
     ICDef (serieName +:+ "-cdef" +:+ itoa i) (serieName +:+ ",UN,0," +:+ serieName +:+ ",IF")
       ∈ g_prog (rrdSetGraph graph serieName itemName pcts) /\
     IVDef (serieName +:+ "-vdef" +:+ itoa i)
           (serieName +:+ "-cdef" +:+ itoa i +:+ "," +:+ fmt_fixed 6 p +:+ ",PERCENT")
       ∈ g_prog (rrdSetGraph graph serieName itemName pcts)) /\
  g_daemon (rrdSetGraph graph serieName itemName pcts) = g_daemon graph /\
  (exists ext, g_prog (rrdSetGraph graph serieName itemName pcts) = (g_prog graph ++ ext)%list /\
     List.length ext = (8 + 3 * List.length pcts)%nat).
Proof.
  split; [| split; [reflexivity |]].
  - intros i p Hi. unfold rrdSetGraph. cbn [g_prog].
    destruct (set_graph_pcts_defs serieName itemName pcts 0 i p Hi) as [H1 H2].
    split; rewrite !elem_of_app; right; right; assumption.
  - eexists. split; [reflexivity |].
    rewrite length_app, length_set_graph_pcts. reflexivity.
Qed.

Lemma parse_info_line_keys (pf : string -> option PlotValue) (v : string)
    (data data' : gmap string PlotResult) :
  parse_info_line pf v data = Ok data' ->
  (forall l, is_Some (data' !! l) <-> is_Some (data !! l) \/ line_label v = Some l) /\
  (forall l pr, data' !! l = Some pr -> data !! l = None -> Plots pr = []) /\
  (forall l pr, data !! l = Some pr -> exists pr', data' !! l = Some pr' /\ Plots pr' = Plots pr).
Proof.
  unfold parse_info_line, line_label.
  destruct (SplitN v ","%char 3) as [| c0 [| c1 [| c2 cs]]]; intros H; try discriminate.
  injection H as <-. split; [| split].
  - intros l. destruct (String.eq_dec c0 l) as [<- | Hne].
    + rewrite lookup_insert_eq. split; [auto | intros _; eauto].
    + rewrite lookup_insert_ne by exact Hne. split; [auto |].
      intros [Hl | Hl]; [exact Hl | injection Hl as E; contradiction].
  - intros l pr Hl Hn. destruct (String.eq_dec c0 l) as [<- | Hne].
    + rewrite lookup_insert_eq in Hl. injection Hl as <-. rewrite Hn. reflexivity.
    + rewrite lookup_insert_ne in Hl by exact Hne. congruence.
  - intros l pr Hl. destruct (String.eq_dec c0 l) as [<- | Hne].
    + rewrite lookup_insert_eq, Hl. eauto.
    + rewrite lookup_insert_ne by exact Hne. eauto.
Qed.

(** When [rrdParseInfo] completes, the labels of the result are those it
    started with and the labels of the statistic lines; an entry it adds for
    a new label has no samples, and an entry it started with keeps its
    samples. *)
Theorem rrdParseInfo_labels (pf : string -> option PlotValue) (print : list string) :
  forall (data res : gmap string PlotResult),
  rrdParseInfo pf print data = Ok res ->
  (forall l, is_Some (res !! l) <->
     is_Some (data !! l) \/ exists v, v ∈ print /\ line_label v = Some l) /\
  (forall l pr, res !! l = Some pr -> data !! l = None -> Plots pr = []) /\
  (forall l pr, data !! l = Some pr -> exists pr', res !! l = Some pr' /\ Plots pr' = Plots pr).
Proof.
  induction print as [| v rest IH]; intros data res H; simpl in H.
  - injection H as <-. split; [| split].
    + intros l. split; [auto |]. intros [Hl | (v & Hv & _)]; [exact Hl |].
      apply elem_of_nil in Hv. contradiction.
    + intros l pr Hl Hn. congruence.
    + intros l pr Hl. eauto.
  - destruct (parse_info_line pf v data) as [d1 | m | m] eqn:E; simpl in H; try discriminate.
    destruct (parse_info_line_keys pf v data d1 E) as (K1 & N1 & P1).
    destruct (IH d1 res H) as (K2 & N2 & P2). split; [| split].
    + intros l. rewrite K2, K1. split.
      * intros [[Hl | Hl] | (w & Hw & Hl)]; [auto | | ].
        -- right. exists v. split; [apply elem_of_cons; left; reflexivity | exact Hl].
        -- right. exists w. split; [apply elem_of_cons; right; exact Hw | exact Hl].
      * intros [Hl | (w & Hw & Hl)]; [auto |].
        apply elem_of_cons in Hw as [-> | Hw]; [auto |]. right. eauto.
    + intros l pr Hl Hn. destruct (d1 !! l) as [pr1 |] eqn:E1.
      * destruct (P2 l pr1 E1) as (pr' & Hr & Hp). rewrite Hl in Hr. injection Hr as <-.
        rewrite Hp. exact (N1 l pr1 E1 Hn).
      * exact (N2 l pr Hl E1).
    + intros l pr Hl. destruct (P1 l pr Hl) as (pr1 & H1 & Hp1).
      destruct (P2 l pr1 H1) as (pr' & H2 & Hp2). exists pr'. split; [exact H2 | congruence].
Qed.

Lemma rrdParseInfo_labels_witness :
  exists res, rrdParseInfo ParseFloat ["total,min,3.000000"; "total,avg,bad"] ∅ = Ok res /\
  (forall l, is_Some (res !! l) <->
     is_Some ((∅ : gmap string PlotResult) !! l) \/
     exists v, v ∈ ["total,min,3.000000"; "total,avg,bad"] /\ line_label v = Some l) /\
  (forall l pr, res !! l = Some pr -> (∅ : gmap string PlotResult) !! l = None -> Plots pr = []) /\
  (forall l pr, (∅ : gmap string PlotResult) !! l = Some pr ->
     exists pr', res !! l = Some pr' /\ Plots pr' = Plots pr).
Proof.
  eexists. split; [vm_compute; reflexivity |].
  exact (rrdParseInfo_labels ParseFloat ["total,min,3.000000"; "total,avg,bad"] ∅ _ eq_refl).
Defined.

Lemma value_rows_in_range (d : XportData) (index : nat) (rows : list nat) :
  (forall i, i ∈ rows -> (List.length (xd_Legends d) * i + index < List.length (xd_values d))%nat) ->
  exists vs, value_rows d index rows = Ok vs /\ List.length vs = List.length rows /\
  (forall k i, rows !! k = Some i ->
     vs !! k = xd_values d !! (List.length (xd_Legends d) * i + index)%nat).
Proof.
  induction rows as [| i rest IH]; intros Hr; simpl.
  - exists []. split; [reflexivity |]. split; [reflexivity |]. intros k i Hk. discriminate.
  - assert (Hi : (List.length (xd_Legends d) * i + index < List.length (xd_values d))%nat)
      by (apply Hr, elem_of_cons; left; reflexivity).
    destruct (IH (fun j Hj => Hr j (list_elem_of_further _ _ _ Hj))) as (vs & Hvs & Hl & Hk).
    apply lookup_lt_is_Some_2 in Hi as [v Hv].
    unfold ValueAt. rewrite Hv. simpl. rewrite Hvs. simpl.
    exists (v :: vs). split; [reflexivity |]. split; [simpl; lia |].
    intros [| k] j Hj; simpl in Hj.
    + injection Hj as <-. simpl. symmetry. exact Hv.
    + simpl. exact (Hk k j Hj).
Qed.

Lemma fill_plots_table (d : XportData) (series : gmap string string) (legs : list string) :
  List.length (xd_values d) = (List.length (xd_Legends d) * xd_RowCnt d)%nat ->
  forall index result,
  (index + List.length legs <= List.length (xd_Legends d))%nat ->
  exists r, fill_plots d index legs series result = Ok r /\
  (forall l, is_Some (r !! l) <->
     is_Some (result !! l) \/ exists n, n ∈ legs /\ default "" (series !! n) = l) /\
  (forall l, (forall n, n ∈ legs -> default "" (series !! n) <> l) -> r !! l = result !! l) /\
  (forall j n, legs !! j = Some n ->
     (forall j' n', (j < j')%nat -> legs !! j' = Some n' ->
        default "" (series !! n') <> default "" (series !! n)) ->
     exists pr, r !! default "" (series !! n) = Some pr /\ Info pr = ∅ /\
       List.length (Plots pr) = xd_RowCnt d /\
       forall i, (i < xd_RowCnt d)%nat ->
         Plots pr !! i = xd_values d !! (List.length (xd_Legends d) * i + (index + j))%nat).
Proof.
  intros Hlen. induction legs as [| n rest IH]; intros index result Hix; simpl.
  - exists result. split; [reflexivity |]. split; [| split].
    + intros l. split; [auto |]. intros [Hl | (n & Hn & _)]; [exact Hl |].
      apply elem_of_nil in Hn. contradiction.
    + intros l _. reflexivity.
    + intros j n Hj. discriminate.
  - simpl in Hix.
    destruct (value_rows_in_range d index (seq 0 (xd_RowCnt d))) as (vs & Hvs & Hvl & Hvk).
    { intros i Hi. apply list_elem_of_In, in_seq in Hi. rewrite Hlen. nia. }
    rewrite Hvs. simpl.
    set (lab := default "" (series !! n)).
    set (result1 := <[lab := {| Plots := vs; Info := ∅ |}]> result).
    destruct (IH (S index) result1 ltac:(lia)) as (r & Hr & K & C & B).
    exists r. split; [exact Hr |]. split; [| split].
    + intros l. rewrite K. unfold result1. destruct (String.eq_dec lab l) as [<- | Hne].
      * rewrite lookup_insert_eq. split; [intros _; right; exists n; split; [apply elem_of_cons; left |]; reflexivity |].
        intros _. left. eauto.
      * rewrite lookup_insert_ne by exact Hne. split.
        -- intros [Hl | (m & Hm & Hml)]; [auto |]. right. exists m.
           split; [apply elem_of_cons; right; exact Hm | exact Hml].
        -- intros [Hl | (m & Hm & Hml)]; [auto |].
           apply elem_of_cons in Hm as [-> | Hm]; [contradiction |]. right. eauto.
    + intros l Hl. rewrite C.
      * unfold result1. rewrite lookup_insert_ne; [reflexivity |].
        apply Hl, elem_of_cons. left. reflexivity.
      * intros m Hm. apply Hl, elem_of_cons. right. exact Hm.
    + intros [| j] m Hj Hlast; simpl in Hj.
      * injection Hj as <-. fold lab. rewrite C.
        -- unfold result1. rewrite lookup_insert_eq. eexists. split; [reflexivity |].
           simpl. split; [reflexivity |]. rewrite Hvl, length_seq. split; [reflexivity |].
           intros i Hi. rewrite Nat.add_0_r. apply Hvk. apply lookup_seq. lia.
        -- intros m Hm. apply list_elem_of_lookup in Hm as [j' Hj'].
           exact (Hlast (S j') m ltac:(lia) Hj').
      * destruct (B j m Hj (fun j' n' Hjj Hn' => Hlast (S j') n' ltac:(lia) Hn'))
          as (pr & H1 & H2 & H3 & H4).
        exists pr. split; [exact H1 |]. split; [exact H2 |]. split; [exact H3 |].
        intros i Hi. rewrite (H4 i Hi). do 2 f_equal. lia.
Qed.

(** When the export table holds one value per legend and row (the layout
    [ValueAt] reads), the export loop succeeds, the result's labels are the
    labels of the legends, and the entry of a label is a fresh result (no
    statistics) whose samples are the column of the last legend with that
    label: one sample per row, row by row. *)
Theorem getdata_export_columns (d : XportData) (series : gmap string string) :
  List.length (xd_values d) = (List.length (xd_Legends d) * xd_RowCnt d)%nat ->
  exists r, fill_plots d 0 (xd_Legends d) series ∅ = Ok r /\
  (forall l, is_Some (r !! l) <-> exists n, n ∈ xd_Legends d /\ default "" (series !! n) = l) /\
  (forall j n, xd_Legends d !! j = Some n ->
     (forall j' n', (j < j')%nat -> xd_Legends d !! j' = Some n' ->
        default "" (series !! n') <> default "" (series !! n)) ->
     exists pr, r !! default "" (series !! n) = Some pr /\ Info pr = ∅ /\
       List.length (Plots pr) = xd_RowCnt d /\
       forall i, (i < xd_RowCnt d)%nat ->
         Plots pr !! i = xd_values d !! (List.length (xd_Legends d) * i + j)%nat).
Proof.
  intros Hlen.
  destruct (fill_plots_table d series (xd_Legends d) Hlen 0 ∅ ltac:(lia)) as (r & Hr & K & _ & B).
  exists r. split; [exact Hr |]. split.
  - intros l. rewrite K, lookup_empty. split; [intros [[? Hx] | Hx]; [discriminate | exact Hx] | auto].
  - intros j n Hj Hlast. exact (B j n Hj Hlast).
Qed.

Lemma getdata_export_columns_witness :
  List.length (xd_values xd_two) = (List.length (xd_Legends xd_two) * xd_RowCnt xd_two)%nat /\
  exists r, fill_plots xd_two 0 (xd_Legends xd_two) series_two ∅ = Ok r /\
  (forall l, is_Some (r !! l) <-> exists n, n ∈ xd_Legends xd_two /\ default "" (series_two !! n) = l) /\
  (forall j n, xd_Legends xd_two !! j = Some n ->
     (forall j' n', (j < j')%nat -> xd_Legends xd_two !! j' = Some n' ->
        default "" (series_two !! n') <> default "" (series_two !! n)) ->
     exists pr, r !! default "" (series_two !! n) = Some pr /\ Info pr = ∅ /\
       List.length (Plots pr) = xd_RowCnt xd_two /\
       forall i, (i < xd_RowCnt xd_two)%nat ->
         Plots pr !! i = xd_values xd_two !! (List.length (xd_Legends xd_two) * i + j)%nat).
Proof.
  assert (H : List.length (xd_values xd_two) = (List.length (xd_Legends xd_two) * xd_RowCnt xd_two)%nat)
    by reflexivity.
  split; [exact H |]. exact (getdata_export_columns xd_two series_two H).
Defined.

Lemma agg_loop_keeps_labels (c : RRDConnector) (io : bool) (sn : string) (series : list SerieQuery) :
  forall idx st st', agg_loop c io sn idx series st = Ok st' ->
  cs_series st' = cs_series st /\ cs_count st' = cs_count st.
Proof.
  induction series as [| serie rest IH]; intros idx st st' H; simpl in H.
  - injection H as <-. auto.
  - destruct (sq_Metric serie) as [mq |]; [| exact (IH _ _ _ H)].
    destruct (metric_lookup (metrics c) mq) as [rm | m | m]; simpl in H; try discriminate.
    exact (IH _ _ _ H).
Qed.

(** In [OperGroupTypeAvg] and [OperGroupTypeSum] mode the compiled query has
    a single label: the merged series [serie0], labelled with the group's
    name. *)
Theorem agg_compile_single_label (c : RRDConnector) (q : GroupQuery) (pcts : list Q) (io : bool)
    (st : CState) :
  (gq_Type q = OperGroupTypeAvg \/ gq_Type q = OperGroupTypeSum) ->
  rrdCompile c q pcts io = Ok st ->
  cs_series st = {[ "serie0" := gq_Name q ]} /\ cs_count st = 1%nat.
Proof.
  intros Hty H. unfold rrdCompile in H.
  assert (E : (gq_Type q =? OperGroupTypeNone)%Z = false)
    by (destruct Hty as [E | E]; rewrite E; reflexivity).
  assert (E' : ((gq_Type q =? OperGroupTypeAvg)%Z || (gq_Type q =? OperGroupTypeSum)%Z)%bool = true)
    by (destruct Hty as [E' | E']; rewrite E'; reflexivity).
  rewrite E, E' in H. unfold agg_case in H.
  destruct (agg_loop c io _ 0 (gq_Series q) _) as [st2 | m | m] eqn:L; simpl in H; try discriminate.
  injection H as <-. destruct (agg_loop_keeps_labels _ _ _ _ _ _ _ L) as [Hs Hc].
  simpl in Hs, Hc. simpl. rewrite Hs, Hc. split; reflexivity.
Qed.

Lemma agg_compile_single_label_witness :
  exists st, (gq_Type q_sum2 = OperGroupTypeAvg \/ gq_Type q_sum2 = OperGroupTypeSum) /\
  rrdCompile conn0 q_sum2 [] false = Ok st /\
  cs_series st = {[ "serie0" := gq_Name q_sum2 ]} /\ cs_count st = 1%nat.
Proof.
  assert (Hty : gq_Type q_sum2 = OperGroupTypeAvg \/ gq_Type q_sum2 = OperGroupTypeSum)
    by (right; reflexivity).
  eexists. split; [exact Hty |]. split; [reflexivity |].
  exact (agg_compile_single_label conn0 q_sum2 [] false _ Hty eq_refl).
Defined.
